(** * nitorch: Greens-function random fields and the VoxelMorph pipeline

    A shallow embedding of
      - [nitorch/nn/generators/field.py]  (RandomFieldGreens, RandomGridGreens,
        RandomMultiplicativeField), and
      - [nitorch/nn/modules/registration.py]  (VoxelMorph.exp, VoxelMorph.forward).

    Conventions of the embedding.
      - A Python call that may raise is a function into [result]; the
        exception classes that the modelled lines can raise are the
        constructors of [exn].
      - A module instance is a record of the attributes its constructor sets,
        plus a finite map [attrs] for the attributes that [forward] creates
        later ([_greens], [_voxel_size], [_shape]); [hasattr] and attribute
        reads go through that map, and reading a name that is not in it
        raises [AttributeError], as [torch.nn.Module.__getattr__] does.
      - Arrays are described by their shape; the kernels are described by the
        call to [spatial.greens] they come from, so that two kernels are equal
        exactly when they were built from the same request.
      - Where values matter (the square-root stage and the spectral filter),
        arrays are functions from multi-indices to real numbers and torch's
        broadcasting is written out.  Arithmetic is exact there: rounding of
        the floating-point types is not part of the model.
      - The entry-wise functions of RandomMultiplicativeField are the
        exception: what they return depends on rounding, so their arrays
        hold IEEE 754 binary floats ([SpecFloat] of the Standard Library)
        and every operation rounds to nearest, ties to even.
      - dtype and device are carried through the source unchanged and are left
        out; [Tensor.to] is the identity on the description of a kernel. *)

From Stdlib Require Import ZArith QArith Qround Qpower Reals Lra Lia.
From Stdlib Require SpecFloat.
From stdpp Require Import gmap strings list.

Local Open Scope nat_scope.

(* ===================================================================== *)
(** * Python values and exceptions *)
(* ===================================================================== *)

Module Py.

Inductive exn : Type :=
| AttributeError (name : string)      (* reading an attribute that was never set *)
| UnboundLocalError (name : string)   (* reading a local assigned on another path *)
| TypeError (what : string)           (* e.g. len(None) *)
| RuntimeError (what : string)        (* raised by torch *)
| ValueError (what : string)          (* raised by nitorch.nn.check *)
| IndexError (what : string).

Inductive result (A : Type) : Type :=
| Ok (a : A)
| Raise (e : exn).
Arguments Ok {A} a.
Arguments Raise {A} e.

Definition bind {A B} (r : result A) (k : A → result B) : result B :=
  match r with
  | Ok a => k a
  | Raise e => Raise e
  end.

(** [float] or sequence of [float] arguments ("vector_like" in the
    docstrings).  Numbers are rationals: only equality and the zero test are
    ever applied to them in the modelled lines. *)
Inductive vector_like : Type :=
| Scalar (x : Q)
| Vector (l : list Q).

(** Modelled from the spec: [utils.make_vector] is the "vector broadcasting"
    wrapper, which nitorch keeps in [nitorch/core/utils.py] (not part of the
    sources at hand).  A scalar is repeated [n] times; a sequence is cropped
    to [n] entries or padded with its last entry. *)
Definition make_vector (v : vector_like) (n : nat) : list Q :=
  match v with
  | Scalar x => repeat x n
  | Vector l => take n l ++ repeat (List.last l 0%Q) (n - length l)
  end.

(** [==] on lists of floats, and on lists of ints. *)
Fixpoint floats_eqb (a b : list Q) : bool :=
  match a, b with
  | [], [] => true
  | x :: a', y :: b' => Qeq_bool x y && floats_eqb a' b'
  | _, _ => false
  end.

Definition ints_eqb (a b : list nat) : bool := bool_decide (a = b).

(** [any(l)] on numbers: some entry is non-zero. *)
Definition any_nonzero (l : list Q) : bool :=
  existsb (fun x => negb (Qeq_bool x 0)) l.

End Py.

(* ===================================================================== *)
(** * Shapes of torch arrays *)
(* ===================================================================== *)

Module Torch.
Import Py.

(** In-place arithmetic ([a *= b], [a += b]) broadcasts [b] to the shape of
    [a]; [a] itself is never enlarged.  With both shapes read from the last
    axis backwards, every axis of [b] must have the extent of the matching
    axis of [a], or extent 1, and [b] must not have more axes than [a]. *)
Fixpoint fits_rev (a b : list nat) : bool :=
  match b, a with
  | [], _ => true
  | _ :: _, [] => false
  | y :: b', x :: a' => ((y =? x) || (y =? 1)) && fits_rev a' b'
  end.

Definition fits (a b : list nat) : bool := fits_rev (rev a) (rev b).

Definition inplace (op : string) (a b : list nat) : result (list nat) :=
  if fits a b then Ok a
  else Raise (RuntimeError (op ++ ": output shape doesn't match the broadcast shape")).

(** [t.unsqueeze(-1)] *)
Definition unsqueeze_last (s : list nat) : list nat := s ++ [1].

(** [torch.stack]: a non-empty list of arrays of one shape. *)
(** Out-of-place arithmetic ([a * b], [a / b]) broadcasts both operands. *)
Fixpoint broadcast_rev (a b : list nat) : result (list nat) :=
  match a, b with
  | [], _ => Ok b
  | _, [] => Ok a
  | x :: a', y :: b' =>
      bind (broadcast_rev a' b') (fun r =>
      if x =? y then Ok (x :: r)
      else if x =? 1 then Ok (y :: r)
      else if y =? 1 then Ok (x :: r)
      else Raise (RuntimeError "the size of tensor a must match the size of tensor b"))
  end.

Definition broadcast (a b : list nat) : result (list nat) :=
  bind (broadcast_rev (rev a) (rev b)) (fun r => Ok (rev r)).

(** [torch.svd] of a stack of square matrices: the shapes of [U] and [S]. *)
Definition svd_shapes (s : list nat) : list nat * list nat := (s, removelast s).

(** Modelled from the spec: [linalg.matvec] lives in [nitorch/core/linalg.py]
    (not part of the sources at hand).  Section 4.4 calls it a batched
    matrix-vector product: the matrices are the last two axes of [mat], the
    vectors the last axis of [vec], the axes before them broadcast. *)
Definition matvec (mat vec : list nat) : result (list nat) :=
  match rev mat, rev vec with
  | n :: m :: bm, n' :: bv =>
      if n =? n' then
        bind (broadcast_rev bm bv) (fun r => Ok (rev (m :: r)))
      else Raise (RuntimeError "matvec: size mismatch")
  | _, _ => Raise (RuntimeError "matvec: not enough dimensions")
  end.

(** [complex(sample[0], sample[1])]: both indices must exist on the first
    axis. *)
Definition complex_of_parts (s : list nat) : result (list nat) :=
  match s with
  | n :: rest =>
      if 2 <=? n then Ok rest else Raise (IndexError "index 1 is out of bounds")
  | [] => Raise (IndexError "invalid index of a 0-dim tensor")
  end.

Definition stack (shapes : list (list nat)) : result (list nat) :=
  match shapes with
  | [] => Raise (RuntimeError "stack expects a non-empty TensorList")
  | s :: rest =>
      if forallb (ints_eqb s) rest then Ok (length shapes :: s)
      else Raise (RuntimeError "stack expects each tensor to be equal size")
  end.

End Torch.

(* ===================================================================== *)
(** * Kernels and what the samplers keep between calls *)
(* ===================================================================== *)

Module Greens.
Import Py Torch.

(** One call [spatial.greens(shape, absolute=.., membrane=.., bending=..,
    lame=.., voxel_size=..)]. *)
Record greens_call : Type := GreensCall {
  g_shape : list nat;
  g_absolute : Q;
  g_membrane : Q;
  g_bending : Q;
  g_lame : vector_like;
  g_voxel_size : list Q
}.

(** [py.make_list(lame, 2)] *)
Definition make_list2 (lame : vector_like) : list Q := make_vector lame 2.

(** Modelled from the spec: [spatial.greens] lives in [nitorch/spatial] (not
    part of the sources at hand).  Section 4.1: for scalar (non-elastic)
    requests the output has the shape of the lattice; with non-zero Lame
    terms it is a d-by-d matrix per frequency: the lattice shape followed by
    two axes of extent d. *)
Definition greens_shape (c : greens_call) : list nat :=
  if any_nonzero (make_list2 (g_lame c))
  then g_shape c ++ [length (g_shape c); length (g_shape c)]
  else g_shape c.

(** How the square-rooted kernel is obtained from the Greens kernel. *)
Inductive root : Type :=
| ElementwiseSqrt   (* greens.sqrt_() *)
| SvdRows.          (* U, S, _ = svd(greens); U *= S.sqrt_().unsqueeze(-1) *)

(** A square-rooted kernel: its shape, and the request(s) it was built from
    (one per channel for the scalar-field sampler). *)
Record kernel : Type := Kernel {
  k_shape : list nat;
  k_calls : list greens_call;
  k_root : root
}.

(** The values that [forward] stores on the instance. *)
Inductive pyval : Type :=
| VKernel (k : kernel)
| VFloats (l : list Q)
| VInts (l : list nat)
| VInt (n : nat).

(** Python [==] between two such values. *)
Definition py_eq (a b : pyval) : bool :=
  match a, b with
  | VFloats x, VFloats y => floats_eqb x y
  | VInts x, VInts y => ints_eqb x y
  | VInt x, VInt y => x =? y
  | _, _ => false
  end.

(** The sampled array: its shape and the kernel its noise was filtered by. *)
Record field : Type := Field {
  field_shape : list nat;
  field_greens : kernel
}.

(** What one call of [forward] leaves behind: the instance afterwards, the
    calls to [spatial.greens] it made (the build counter), and what it
    returned or raised. *)
Record outcome (I : Type) : Type := Outcome {
  after : I;
  built : list greens_call;
  ret : result field
}.
Arguments Outcome {I} after built ret.
Arguments after {I} o.
Arguments built {I} o.
Arguments ret {I} o.

(** Keyword arguments of [forward] that replace instance attributes. *)
Record overload : Type := Overload {
  o_shape : option (list nat);
  o_channel : option nat;
  o_voxel_size : option vector_like;
  o_mean : option Q
}.

Definition no_overload : overload := Overload None None None None.

End Greens.

(* ===================================================================== *)
(** * RandomFieldGreens (field.py, lines 205-331) *)
(* ===================================================================== *)

Module RandomFieldGreens.
Import Py Torch Greens.

Record instance : Type := Instance {
  shape : option (list nat);
  mean : vector_like;
  channel : nat;
  absolute : vector_like;
  membrane : vector_like;
  bending : vector_like;
  voxel_size : vector_like;
  cache_greens : bool;
  attrs : gmap string pyval      (* attributes created outside __init__ *)
}.

(** [__init__]: no cache attribute exists on a fresh instance. *)
Definition init (shape : option (list nat)) (mean : vector_like) (channel : nat)
    (absolute membrane bending voxel_size : vector_like) (cache_greens : bool)
    : instance :=
  Instance shape mean channel absolute membrane bending voxel_size cache_greens ∅.

Definition hasattr (self : instance) (name : string) : bool :=
  match attrs self !! name with Some _ => true | None => false end.

Definition getattr (self : instance) (name : string) : result pyval :=
  match attrs self !! name with
  | Some v => Ok v
  | None => Raise (AttributeError name)
  end.

Definition setattr (self : instance) (name : string) (v : pyval) : instance :=
  Instance (shape self) (mean self) (channel self) (absolute self)
           (membrane self) (bending self) (voxel_size self) (cache_greens self)
           (<[name := v]> (attrs self)).

(** Lines 288-291, the condition of the [if], evaluated left to right with
    the short-circuit of [and]. *)
Definition cache_valid (self : instance) (voxel_size : list Q) (channel : nat)
    (shape : list nat) : result bool :=
  if hasattr self "_greens" then
    bind (getattr self "_voxel_size") (fun v =>
    if py_eq v (VFloats voxel_size) then
      bind (getattr self "_channel") (fun c =>
      if py_eq c (VInt channel) then
        bind (getattr self "_shape") (fun s =>
        Ok (py_eq s (VInts shape)))
      else Ok false)
    else Ok false)
  else Ok false.

(** Lines 294-309: one call to [spatial.greens] per channel. *)
Definition greens_calls (self : instance) (shape : list nat) (channel : nat)
    (voxel_size : list Q) : list greens_call :=
  let absolute := make_vector (absolute self) channel in
  let membrane := make_vector (membrane self) channel in
  let bending := make_vector (bending self) channel in
  map (fun c => GreensCall shape (nth c absolute 0%Q) (nth c membrane 0%Q)
                           (nth c bending 0%Q) (Scalar 0) voxel_size)
      (seq 0 channel).

(** Lines 313-316. *)
Definition store (self : instance) (greens : kernel) (voxel_size : list Q)
    (shape : list nat) : instance :=
  if cache_greens self then
    setattr (setattr (setattr self "_greens" (VKernel greens))
                     "_voxel_size" (VFloats voxel_size))
            "_shape" (VInts shape)
  else self.

(** Lines 318-331.  [mean] is a local that only the rebuilding branch
    assigns. *)
Definition sample (batch channel : nat) (shape : list nat) (greens : kernel)
    (mean : option (list Q)) : result field :=
  let nb_dim := length shape in
  (* sample = torch.randn([2, batch, channel, *shape]) *)
  let s0 := [2; batch; channel] ++ shape in
  (* sample *= greens.unsqueeze(-1) *)
  bind (inplace "mul_" s0 (unsqueeze_last (k_shape greens))) (fun s1 =>
  (* fft.complex(sample[0], sample[1]); ifftn over the last nb_dim axes;
     real part; sample *= py.prod(shape) *)
  bind (complex_of_parts s1) (fun s2 =>
  (* sample += utils.unsqueeze(mean, -1, len(shape)) *)
  match mean with
  | None => Raise (UnboundLocalError "mean")
  | Some m =>
      bind (inplace "add_" s2 (length m :: repeat 1 nb_dim)) (fun s3 =>
      Ok (Field s3 greens))
  end)).

Definition forward (self : instance) (batch : nat) (o : overload)
    : outcome instance :=
  match from_option Some (shape self) (o_shape o) with
  | None => Outcome self [] (Raise (TypeError "len(None)"))
  | Some shape =>
      let channel := default (channel self) (o_channel o) in
      let nb_dim := length shape in
      let voxel_size :=
        make_vector (default (voxel_size self) (o_voxel_size o)) nb_dim in
      match cache_valid self voxel_size channel shape with
      | Raise e => Outcome self [] (Raise e)
      | Ok true =>
          match getattr self "_greens" with
          | Ok (VKernel greens) =>
              Outcome self [] (sample batch channel shape greens None)
          | Ok _ => Outcome self [] (Raise (AttributeError "to"))
          | Raise e => Outcome self [] (Raise e)
          end
      | Ok false =>
          let mean := make_vector (mean self) channel in
          let calls := greens_calls self shape channel voxel_size in
          match stack (map greens_shape calls) with
          | Raise e => Outcome self calls (Raise e)
          | Ok kshape =>
              let greens := Kernel kshape calls ElementwiseSqrt in
              Outcome (store self greens voxel_size shape) calls
                      (sample batch channel shape greens (Some mean))
          end
      end
  end.

(** Changing the penalty weights of an existing instance. *)
Definition set_weights (self : instance) (absolute membrane bending : vector_like)
    : instance :=
  Instance (shape self) (mean self) (channel self) absolute membrane bending
           (voxel_size self) (cache_greens self) (attrs self).

(** Successive calls of [forward] on one instance. *)
Fixpoint forward_all (self : instance) (requests : list (nat * overload))
    : list (outcome instance) :=
  match requests with
  | [] => []
  | (batch, o) :: rest =>
      let r := forward self batch o in
      r :: forward_all (after r) rest
  end.

End RandomFieldGreens.

(* ===================================================================== *)
(** * RandomGridGreens (field.py, lines 334-453) *)
(* ===================================================================== *)

Module RandomGridGreens.
Import Py Torch Greens.

Record instance : Type := Instance {
  shape : option (list nat);
  mean : Q;
  absolute : Q;
  membrane : Q;
  bending : Q;
  lame : vector_like;
  voxel_size : vector_like;
  cache_greens : bool;
  attrs : gmap string pyval      (* attributes created outside __init__ *)
}.

Definition init (shape : option (list nat)) (mean absolute membrane bending : Q)
    (lame voxel_size : vector_like) (cache_greens : bool) : instance :=
  Instance shape mean absolute membrane bending lame voxel_size cache_greens ∅.

Definition hasattr (self : instance) (name : string) : bool :=
  match attrs self !! name with Some _ => true | None => false end.

Definition getattr (self : instance) (name : string) : result pyval :=
  match attrs self !! name with
  | Some v => Ok v
  | None => Raise (AttributeError name)
  end.

Definition setattr (self : instance) (name : string) (v : pyval) : instance :=
  Instance (shape self) (mean self) (absolute self) (membrane self)
           (bending self) (lame self) (voxel_size self) (cache_greens self)
           (<[name := v]> (attrs self)).

(** Lines 408-410. *)
Definition cache_valid (self : instance) (voxel_size : list Q)
    (shape : list nat) : result bool :=
  if hasattr self "_greens" then
    bind (getattr self "_voxel_size") (fun v =>
    if py_eq v (VFloats voxel_size) then
      bind (getattr self "_shape") (fun s =>
      Ok (py_eq s (VInts shape)))
    else Ok false)
  else Ok false.

(** Lines 413-421. *)
Definition greens_call_of (self : instance) (shape : list nat)
    (voxel_size : list Q) : greens_call :=
  GreensCall shape (absolute self) (membrane self) (bending self) (lame self)
             voxel_size.

(** Lines 422-427. *)
Definition square_root (lame : list Q) (call : greens_call) : result kernel :=
  if any_nonzero lame then
    let '(u, s) := svd_shapes (greens_shape call) in
    bind (inplace "mul_" u (unsqueeze_last s)) (fun r =>
    Ok (Kernel r [call] SvdRows))
  else Ok (Kernel (greens_shape call) [call] ElementwiseSqrt).

(** Lines 429-432. *)
Definition store (self : instance) (greens : kernel) (voxel_size : list Q)
    (shape : list nat) : instance :=
  if cache_greens self then
    setattr (setattr (setattr self "_greens" (VKernel greens))
                     "_voxel_size" (VFloats voxel_size))
            "_shape" (VInts shape)
  else self.

(** Lines 434-453. *)
Definition sample (batch : nat) (shape : list nat) (greens : kernel)
    : result field :=
  let nb_dim := length shape in
  (* sample = torch.randn([2, batch, *shape, nb_dim]) *)
  let s0 := [2; batch] ++ shape ++ [nb_dim] in
  bind (if nb_dim <? length (k_shape greens)
        then matvec (k_shape greens) s0
        else bind (broadcast s0 (unsqueeze_last (k_shape greens))) (fun s =>
             broadcast s [nb_dim])) (fun s1 =>
  (* fft.complex(sample[0], sample[1]); ifftn; real; *= prod(shape); += mean *)
  bind (complex_of_parts s1) (fun s2 =>
  Ok (Field s2 greens))).

Definition forward (self : instance) (batch : nat) (o : overload)
    : outcome instance :=
  match from_option Some (shape self) (o_shape o) with
  | None => Outcome self [] (Raise (TypeError "len(None)"))
  | Some shape =>
      let nb_dim := length shape in
      let voxel_size :=
        make_vector (default (voxel_size self) (o_voxel_size o)) nb_dim in
      let lame := make_list2 (lame self) in
      match cache_valid self voxel_size shape with
      | Raise e => Outcome self [] (Raise e)
      | Ok true =>
          match getattr self "_greens" with
          | Ok (VKernel greens) => Outcome self [] (sample batch shape greens)
          | Ok _ => Outcome self [] (Raise (AttributeError "to"))
          | Raise e => Outcome self [] (Raise e)
          end
      | Ok false =>
          let call := greens_call_of self shape voxel_size in
          match square_root lame call with
          | Raise e => Outcome self [call] (Raise e)
          | Ok greens =>
              Outcome (store self greens voxel_size shape) [call]
                      (sample batch shape greens)
          end
      end
  end.

(** Changing the penalty weights of an existing instance. *)
Definition set_weights (self : instance) (absolute membrane bending : Q)
    (lame : vector_like) : instance :=
  Instance (shape self) (mean self) absolute membrane bending lame
           (voxel_size self) (cache_greens self) (attrs self).

(** Successive calls of [forward] on one instance. *)
Fixpoint forward_all (self : instance) (requests : list (nat * overload))
    : list (outcome instance) :=
  match requests with
  | [] => []
  | (batch, o) :: rest =>
      let r := forward self batch o in
      r :: forward_all (after r) rest
  end.

End RandomGridGreens.

(* ===================================================================== *)
(** * Arrays with values: broadcasting, square roots, matrix products *)
(* ===================================================================== *)

Module Numeric.
Local Open Scope R_scope.

(** An array: its shape and its entries, read at a multi-index. *)
Record tensor : Type := Tensor {
  tshape : list nat;
  elem : list nat → R
}.

(** The index at which an operand of shape [sh] is read when the broadcast
    result is read at [idx]: the trailing axes of [idx], with 0 on every axis
    of extent 1. *)
Definition bidx (sh idx : list nat) : list nat :=
  zip_with (fun s i => if (s =? 1)%nat then 0%nat else i) sh
           (drop (length idx - length sh) idx).

(** The broadcast of two shapes, axis by axis from the last one. *)
Fixpoint bshape_rev (a b : list nat) : list nat :=
  match a, b with
  | [], _ => b
  | _, [] => a
  | x :: a', y :: b' => (if (x =? 1)%nat then y else x) :: bshape_rev a' b'
  end.

Definition bshape (a b : list nat) : list nat := rev (bshape_rev (rev a) (rev b)).

(** [a * b], [a / b] *)
Definition binop (f : R → R → R) (a b : tensor) : tensor :=
  Tensor (bshape (tshape a) (tshape b))
         (fun idx => f (elem a (bidx (tshape a) idx)) (elem b (bidx (tshape b) idx))).

Definition mul : tensor → tensor → tensor := binop Rmult.
Definition div : tensor → tensor → tensor := binop Rdiv.

(** [a *= b]: the shape of [a] is kept. *)
Definition mul_ (a b : tensor) : tensor :=
  Tensor (tshape a) (fun idx => elem a idx * elem b (bidx (tshape b) idx)).

(** [t.unsqueeze(-1)] *)
Definition unsqueeze_last (t : tensor) : tensor :=
  Tensor (tshape t ++ [1%nat]) (fun idx => elem t (removelast idx)).

(** Entry-wise functions: [t.sqrt()], [t.exp_()], ... *)
Definition tmap (f : R → R) (t : tensor) : tensor :=
  Tensor (tshape t) (fun idx => f (elem t idx)).

Definition tsqrt : tensor → tensor := tmap sqrt.

(** A vector given by its entries. *)
Definition of_list (l : list R) : tensor :=
  Tensor [length l] (fun idx => nth (hd 0%nat idx) l 0).

(** [sum_(j < n) f j] *)
Definition rsum (n : nat) (f : nat → R) : R :=
  foldr Rplus 0 (map f (seq 0 n)).

(** Modelled from the spec: [linalg.matvec] (see [Torch.matvec]), the batched
    matrix-vector product.  The result at [site ++ [i]] is the inner product
    of row [i] of the matrix at that site with the vector at that site. *)
Definition matvec (mat vec : tensor) : tensor :=
  let n := List.last (tshape mat) 0%nat in
  let bm := removelast (removelast (tshape mat)) in
  let bv := removelast (tshape vec) in
  Tensor (bshape bm bv ++ [List.last (removelast (tshape mat)) 0%nat])
         (fun idx =>
            let site := removelast idx in
            let i := List.last idx 0%nat in
            rsum n (fun j => elem mat (bidx bm site ++ [i; j])
                             * elem vec (bidx bv site ++ [j]))).

(** ** The square-root stage (field.py, lines 310-311 and 422-427) *)

(** Lines 311 and 427: [greens.sqrt_()] *)
Definition sqrt_scalar (greens : tensor) : tensor := tsqrt greens.

(** Lines 423-425, after [greens, scale, _ = torch.svd(greens)]:
    [scale = scale.sqrt_(); greens *= scale.unsqueeze(-1)] *)
Definition sqrt_lame (u scale : tensor) : tensor :=
  mul_ u (unsqueeze_last (tsqrt scale)).

(** What [torch.svd] promises about its outputs, at one frequency [x] of a
    stack of d-by-d matrices: [k = u diag(s) v^T] with orthonormal [u], [v]
    and non-negative singular values in descending order. *)
Definition kronecker (i j : nat) : R := if (i =? j)%nat then 1 else 0.

Record is_svd (d : nat) (x : list nat) (k u s v : tensor) : Prop := IsSvd {
  svd_product : ∀ i j, (i < d)%nat → (j < d)%nat →
    elem k (x ++ [i; j])
    = rsum d (fun c => elem u (x ++ [i; c]) * elem s (x ++ [c]) * elem v (x ++ [j; c]));
  svd_u_rows : ∀ i j, (i < d)%nat → (j < d)%nat →
    rsum d (fun c => elem u (x ++ [i; c]) * elem u (x ++ [j; c])) = kronecker i j;
  svd_v_rows : ∀ i j, (i < d)%nat → (j < d)%nat →
    rsum d (fun c => elem v (x ++ [i; c]) * elem v (x ++ [j; c])) = kronecker i j;
  svd_nonneg : ∀ c, (c < d)%nat → 0 <= elem s (x ++ [c]);
  svd_sorted : ∀ c c', (c <= c')%nat → (c' < d)%nat →
    elem s (x ++ [c']) <= elem s (x ++ [c])
}.

(** [R R^T] at frequency [x]. *)
Definition gram (d : nat) (r : tensor) (x : list nat) (i j : nat) : R :=
  rsum d (fun c => elem r (x ++ [i; c]) * elem r (x ++ [j; c])).

(** The factor as section 4.2 words it, [U diag(sqrt(lambda))]: column [c]
    of [u] scaled by the root of singular value [c]. *)
Definition spec_sqrt_lame (u scale : tensor) : tensor :=
  Tensor (tshape u)
         (fun idx => elem u idx
                     * sqrt (elem scale (removelast (removelast idx)
                                         ++ [List.last idx 0%nat]))).

(** A symmetric positive-definite 2-by-2 kernel, of the form
    [I + 3 e e^T] with [e = (3/5, 4/5)], together with its decomposition:
    singular values 4 and 1, singular vectors [e] and [(-4/5, 3/5)]. *)
Definition kernel_2x2 : tensor :=
  Tensor [2; 2]%nat
    (fun idx => match idx with
                | [0; 0]%nat => 52 / 25
                | [0; 1]%nat => 36 / 25
                | [1; 0]%nat => 36 / 25
                | [1; 1]%nat => 73 / 25
                | _ => 0
                end).

Definition vectors_2x2 : tensor :=
  Tensor [2; 2]%nat
    (fun idx => match idx with
                | [0; 0]%nat => 3 / 5
                | [0; 1]%nat => - 4 / 5
                | [1; 0]%nat => 4 / 5
                | [1; 1]%nat => 3 / 5
                | _ => 0
                end).

Definition values_2x2 : tensor :=
  Tensor [2]%nat
    (fun idx => match idx with
                | [0]%nat => 4
                | [1]%nat => 1
                | _ => 0
                end).

(** ** The spectral filter of the vector-field sampler (lines 436-442) *)

Definition spectral_filter (nb_dim : nat) (greens : tensor)
    (voxel_size : list R) (sample : tensor) : tensor :=
  if (nb_dim <? length (tshape greens))%nat then
    matvec greens sample
  else
    let sample := mul sample (unsqueeze_last greens) in
    let voxel_size := of_list voxel_size in
    div sample (tsqrt voxel_size).

(** The filter as section 4.4 words it for kernels without elastic term:
    multiply by the kernel, divide by the square root of the voxel volume. *)
Definition voxel_volume (voxel_size : list R) : R := foldr Rmult 1 voxel_size.

Definition spec_filter_by_volume (greens : tensor) (voxel_size : list R)
    (sample : tensor) : tensor :=
  Tensor (tshape sample)
         (fun idx => elem sample idx * elem greens (bidx (tshape greens) (removelast idx))
                     / sqrt (voxel_volume voxel_size)).

End Numeric.

(* ===================================================================== *)
(** * VoxelMorph (registration.py, lines 11-245) *)
(* ===================================================================== *)

Module VoxelMorph.
Import Py.

(** A velocity field, deformation grid or displacement field:
    [(batch, *spatial, nb_dim)]. *)
Record grid : Type := Grid {
  batch : nat;
  spatial : list nat;
  nb_dim : nat
}.

(** The calls that leave [VoxelMorph] for its sub-modules, in the order in
    which they are made. *)
Inductive event : Type :=
| Cat (source target : list nat)                     (* torch.cat(.., dim=1) *)
| UNet (input : list nat)                            (* self.unet(..) *)
| Resize (input : grid) (type : string)              (* self.resize(..) *)
         (factor : option (list Q)) (shape : option (list nat))
| VelExp (input : grid) (displacement : bool)        (* self.velexp(..) *)
| Pull (image : list nat) (g : grid)                 (* self.pull(..) *)
| ResizeGrid (g : grid) (shape : list nat)           (* spatial.resize_grid(..) *)
| ComputeLosses.                                      (* self.compute(..) *)

Record instance : Type := Instance {
  dim : nat;
  downsample_vel : list Q;
  do_shoot : bool
}.

(** [__init__], lines 119-153, as far as the exponentiation is concerned. *)
Definition init (dim : nat) (downsample : vector_like) (shoot : bool) : instance :=
  Instance dim (make_vector downsample dim) shoot.

(** The factor handed to [GridResize] on line 150. *)
Definition resize_factor (self : instance) : list Q :=
  map (fun f => 1 / f)%Q (downsample_vel self).

Section Layers.

(** Extent of one axis after resizing it by a factor; the rounding is the
    business of [GridResize]. *)
Variable scaled : Q → nat → nat.

(** Modelled from the spec: [GridResize] lives in [nitorch/nn/modules/spatial]
    (not part of the sources at hand).  Section 4.5: it interpolates the field
    onto the lattice given by [shape] when one is passed, and otherwise onto
    the lattice scaled by the per-axis factor; batch and vector axes are
    kept. *)
Definition resize_forward (x : grid) (factor : option (list Q))
    (shape : option (list nat)) : grid :=
  match shape, factor with
  | Some s, _ => Grid (batch x) s (nb_dim x)
  | None, Some f => Grid (batch x) (zip_with scaled f (spatial x)) (nb_dim x)
  | None, None => x
  end.

(** Modelled from the spec: [GridExp] and [GridShoot] live in
    [nitorch/nn/modules/spatial] (not part of the sources at hand).
    Section 4.5: both produce a deformation or displacement over the lattice
    of the velocity they are given. *)
Definition velexp_forward (x : grid) : grid := x.

(** Lines 158-181. *)
Definition exp (self : instance) (velocity : grid) (displacement : bool)
    : list event * grid :=
  (* shape = velocity.shape[1:-1] *)
  let shape := spatial velocity in
  (* velocity_small = self.resize(velocity, type='displacement') *)
  let e1 := Resize velocity "displacement" (Some (resize_factor self)) None in
  let velocity_small := resize_forward velocity (Some (resize_factor self)) None in
  (* grid = self.velexp(velocity_small, displacement=displacement) *)
  let e2 := VelExp velocity_small displacement in
  let grid := velexp_forward velocity_small in
  (* grid = self.resize(grid, shape=shape, factor=None,
                        type='disp' if displacement else 'grid') *)
  let type := if displacement then "disp" else "grid" in
  let e3 := Resize grid type None (Some shape) in
  let grid := resize_forward grid None (Some shape) in
  ([e1; e2; e3], grid).

(** Modelled from the spec: the checks live in [nitorch/nn/check.py] (not part
    of the sources at hand).  Section 4.6, step 1, and section 7: source and
    target must have [dim] spatial axes, agree on the listed axes (extent 1
    may stand for any extent where broadcasting is allowed), and a violation
    is reported at once.  An argument that is [None] is not checked. *)
Definition check_dim (dim : nat) (tensors : list (list nat)) : result unit :=
  if forallb (fun t => length t =? dim + 2) tensors then Ok tt
  else Raise (ValueError "wrong number of dimensions").

Definition agree (broadcast_ok : bool) (x y : list nat) (d : nat) : bool :=
  match x !! d, y !! d with
  | Some a, Some b => (a =? b) || (broadcast_ok && ((a =? 1) || (b =? 1)))
  | _, _ => false
  end.

Definition check_shape (x y : option (list nat)) (dims : list nat)
    (broadcast_ok : bool) : result unit :=
  match x, y with
  | Some x, Some y =>
      if forallb (agree broadcast_ok x y) dims then Ok tt
      else Raise (ValueError "incompatible shapes")
  | _, _ => Ok tt
  end.

(** The violations named in section 7: the batch extents differ and neither
    is 1; some spatial axis does not have the same extent in both arrays. *)
Definition batch_clash (x y : list nat) : Prop :=
  ∃ a b, x !! 0 = Some a ∧ y !! 0 = Some b ∧ a ≠ b ∧ a ≠ 1 ∧ b ≠ 1.

Definition spatial_clash (dim : nat) (x y : list nat) : Prop :=
  ∃ d, 2 ≤ d < dim + 2 ∧ x !! d ≠ y !! d.

(** Lines 215-220. *)
Definition sanity_checks (self : instance) (source target : list nat)
    (source_seg target_seg : option (list nat)) : result unit :=
  bind (check_dim (dim self) [source; target]) (fun _ =>
  bind (check_shape (Some target) (Some source) [0] true) (fun _ =>
  bind (check_shape (Some target) (Some source) (seq 2 (dim self)) false) (fun _ =>
  bind (check_shape target_seg source_seg [0] true) (fun _ =>
  check_shape target_seg source_seg (seq 2 (dim self)) false)))).

(** [torch.cat((source, target), dim=1)]: every axis but the second must
    agree exactly. *)
Definition cat1 (source target : list nat) : result (list nat) :=
  match source, target with
  | b :: c :: s, b' :: c' :: s' =>
      if (b =? b') && bool_decide (s = s') then Ok (b :: (c + c') :: s)
      else Raise (RuntimeError "sizes of tensors must match except in dimension 1")
  | _, _ => Raise (RuntimeError "dimension out of range")
  end.

(** [self.unet] maps [(B, 2 Cin, *S)] to [(B, dim, *S)] (section 6), and
    [channel2last] moves the second axis to the end. *)
Definition unet_channel2last (self : instance) (input : list nat) : grid :=
  Grid (hd 0 input) (drop 2 input) (dim self).

(** [self.pull(image, grid)]: the image resampled on the lattice of the
    grid. *)
Definition pull_forward (image : list nat) (g : grid) : list nat :=
  take 2 image ++ spatial g.

Record output : Type := Output {
  deformed_source : list nat;
  deformed_source_seg : option (list nat);
  velocity : grid
}.

(** Lines 183-245. *)
Definition forward (self : instance) (source target : list nat)
    (source_seg target_seg : option (list nat)) : list event * result output :=
  match sanity_checks self source target source_seg target_seg with
  | Raise e => ([], Raise e)
  | Ok _ =>
      match cat1 source target with
      | Raise e => ([Cat source target], Raise e)
      | Ok source_and_target =>
          let velocity := unet_channel2last self source_and_target in
          let '(exp_events, grid) := exp self velocity false in
          let deformed_source := pull_forward source grid in
          let head := [Cat source target; UNet source_and_target]
                      ++ exp_events ++ [Pull source grid] in
          match source_seg with
          | Some seg =>
              let differs := negb (bool_decide (drop 2 seg = drop 2 source)) in
              let grid' := if differs
                           then resize_forward grid None (Some (drop 2 seg))
                           else grid in
              (head ++ (if differs then [ResizeGrid grid (drop 2 seg)] else [])
                    ++ [Pull seg grid'; ComputeLosses],
               Ok (Output deformed_source (Some (pull_forward seg grid')) velocity))
          | None =>
              (head ++ [ComputeLosses], Ok (Output deformed_source None velocity))
          end
      end
  end.

End Layers.

End VoxelMorph.

(* ===================================================================== *)
(** * Predicates used in the statements about the samplers *)
(* ===================================================================== *)

Module Shapes.

(** Every extent of [l] equals the extent before it (the first one: [prev])
    or is 1. *)
Fixpoint steps_down (prev : nat) (l : list nat) : bool :=
  match l with
  | [] => true
  | x :: l' => ((x =? prev) || (x =? 1)) && steps_down x l'
  end.

End Shapes.

(* ===================================================================== *)
(** * VoxelMorph.__init__ (registration.py, lines 65-156) *)
(* ===================================================================== *)

Module VoxelMorphInit.
Import Py.

(** The values found in the option dictionaries. *)
Inductive value : Type :=
| VNone
| VBool (b : bool)
| VNum (q : Q)                 (* int or float *)
| VStr (s : string)
| VSeq (l : list Q)            (* list or tuple of numbers *)
| VObject (repr : string).     (* e.g. the activation LeakyReLU(0.2) *)

(** What [__init__] can raise while it prepares its layers. *)
Inductive init_error : Type :=
| BadDownsample       (* make_vector on something that is no number or sequence *)
| BadFactor           (* exp['factor'] *= ... on something that is no number *)
| ZeroDivision.       (* 1/f with f = 0 *)

(** [d.setdefault(k, v)] *)
Definition setdefault (k : string) (v : value) (d : gmap string value)
    : gmap string value :=
  match d !! k with
  | Some _ => d
  | None => <[k := v]> d
  end.

(** [dict(d or {})] *)
Definition dict_or_empty (d : option (gmap string value)) : gmap string value :=
  default ∅ d.

(** Truth value of an option. *)
Definition truthy (v : value) : bool :=
  match v with
  | VNone => false
  | VBool b => b
  | VNum q => negb (Qeq_bool q 0)
  | VStr s => negb (String.eqb s "")
  | VSeq l => negb (bool_decide (l = []))
  | VObject _ => true
  end.

(** [utils.make_vector(v, dim).tolist()] on an option value. *)
Definition vector_of (v : value) (dim : nat) : option (list Q) :=
  match v with
  | VNum q => Some (make_vector (Scalar q) dim)
  | VBool b => Some (make_vector (Scalar (if b then 1 else 0)) dim)
  | VSeq [] => if dim =? 0 then Some [] else None
  | VSeq l => Some (make_vector (Vector l) dim)
  | _ => None
  end.

(** [py.prod] of floats. *)
Definition prodq (l : list Q) : Q := foldr Qmult 1%Q l.

(** [v * x] for a float [x]. *)
Definition times (v : value) (x : Q) : option value :=
  match v with
  | VNum q => Some (VNum (q * x))
  | VBool b => Some (VNum ((if b then 1 else 0) * x))
  | _ => None
  end.

(** [[1/f for f in l]] *)
Fixpoint reciprocals (l : list Q) : option (list Q) :=
  match l with
  | [] => Some []
  | f :: l' =>
      if Qeq_bool f 0 then None
      else match reciprocals l' with
           | Some r => Some ((1 / f)%Q :: r)
           | None => None
           end
  end.

(** The sub-modules as they are constructed, each with the keyword arguments
    it receives. *)
Record layers : Type := Layers {
  unet_kwargs : gmap string value;          (* UNet2(dim, in_channels, dim, ** unet) *)
  resize_interpolation : value;             (* GridResize(interpolation=.., *)
  resize_bound : value;                     (*            bound=.., *)
  resize_factors : list Q;                  (*            factor=..) *)
  velexp_shoot : bool;                      (* GridShoot or GridExp *)
  velexp_kwargs : gmap string value;        (* unpacked as ** exp *)
  pull_kwargs : gmap string value;          (* GridPull with ** pull *)
  core : VoxelMorph.instance
}.

(** Lines 108-114. *)
Definition unet_defaults (unet : gmap string value) : gmap string value :=
  setdefault "activation" (VObject "LeakyReLU(0.2)")
  (setdefault "unpool" VNone
  (setdefault "pool" VNone
  (setdefault "kernel_size" (VNum 3)
  (setdefault "decoder" (VSeq [32; 32; 32; 32; 16; 16]%Q)
  (setdefault "encoder" (VSeq [16; 32; 32; 32; 32]%Q) unet))))).

(** Lines 115-118. *)
Definition pull_defaults (pull : gmap string value) : gmap string value :=
  setdefault "extrapolate" (VBool false)
  (setdefault "bound" (VStr "dct2")
  (setdefault "interpolation" (VNum 1) pull)).

(** Lines 119-129. *)
Definition exp_defaults (exp : gmap string value) : gmap string value :=
  setdefault "factor" (VNum 1)
  (setdefault "lame" (VSeq [0.05; 0.2]%Q)
  (setdefault "bending" (VNum 0.2)
  (setdefault "membrane" (VNum 0.001)
  (setdefault "absolute" (VNum 0.0001)
  (setdefault "downsample" (VNum 2)
  (setdefault "shoot" (VBool false)
  (setdefault "steps" (VNum 8)
  (setdefault "bound" (VStr "dft")
  (setdefault "interpolation" (VNum 1) exp))))))))).

(** Lines 134-144: the keyword arguments left for the exponentiation layer. *)
Definition exp_kwargs (do_shoot : bool) (downsample_vel : list Q)
    (exp : gmap string value) : init_error + gmap string value :=
  if do_shoot then
    let exp := delete "voxel_size" (delete "bound" (delete "interpolation" exp)) in
    match times (default VNone (exp !! "factor")) (prodq downsample_vel) with
    | Some f => inr (<["factor" := f]> exp)
    | None => inl BadFactor
    end
  else
    inr (delete "factor" (delete "lame" (delete "bending" (delete "membrane"
          (delete "absolute" exp))))).

(** Lines 107-153. *)
Definition init (dim : nat) (unet pull exp : option (gmap string value))
    : init_error + layers :=
  let unet := unet_defaults (dict_or_empty unet) in
  let pull := pull_defaults (dict_or_empty pull) in
  let exp := exp_defaults (dict_or_empty exp) in
  (* do_shoot = exp.pop('shoot') *)
  let do_shoot := truthy (default VNone (exp !! "shoot")) in
  let exp := delete "shoot" exp in
  (* downsample_vel = utils.make_vector(exp.pop('downsample'), dim).tolist() *)
  match vector_of (default VNone (exp !! "downsample")) dim with
  | None => inl BadDownsample
  | Some downsample_vel =>
      let exp := delete "downsample" exp in
      let vel_inter := default VNone (exp !! "interpolation") in
      let vel_bound := default VNone (exp !! "bound") in
      match exp_kwargs do_shoot downsample_vel exp with
      | inl e => inl e
      | inr exp =>
          match reciprocals downsample_vel with
          | None => inl ZeroDivision
          | Some factor =>
              inr (Layers unet vel_inter vel_bound factor do_shoot exp pull
                          (VoxelMorph.Instance dim downsample_vel do_shoot))
          end
      end
  end.

(** The default of an option of the exponentiation dictionary, if it has
    one. *)
Definition exp_default (k : string) : option value :=
  exp_defaults ∅ !! k.

End VoxelMorphInit.

(* ===================================================================== *)
(** * RandomFieldSpline and RandomMultiplicativeField: shapes
      (field.py, lines 115-202 and 575-625) *)
(* ===================================================================== *)

Module RandomFieldSpline.
Import Py Torch Greens.

Record instance : Type := Instance {
  shape : option (list nat);
  mean : vector_like;
  amplitude : vector_like;
  fwhm : vector_like;
  channel : nat;
  basis : nat
}.

(** Lines 195-196: [(s/f).ceil().int().item()], the number of spline nodes
    along one axis.  A width that is not positive gives no usable count. *)
Definition node_count (s : nat) (f : Q) : result nat :=
  if Qle_bool f 0 then Raise (RuntimeError "invalid number of nodes")
  else Ok (Z.to_nat (Qceiling (inject_Z (Z.of_nat s) / f))).

Fixpoint nodes (shape : list nat) (fwhm : list Q) : result (list nat) :=
  match shape, fwhm with
  | s :: shape', f :: fwhm' =>
      bind (node_count s f) (fun n =>
      bind (nodes shape' fwhm') (fun ns => Ok (n :: ns)))
  | _, _ => Ok []          (* zip stops at the shorter sequence *)
  end.

(** Modelled from the spec: [spatial.resize] lives in [nitorch/spatial] (not
    part of the sources at hand).  Section 4.5 describes resizing as
    interpolation onto the lattice that is asked for: with [shape=] given,
    the spatial extents become that shape, batch and channel are kept. *)
Definition resize_to (x : list nat) (shape : list nat) : list nat :=
  take 2 x ++ shape.

(** Lines 181-202; the result is the shape of the array returned. *)
Definition forward (self : instance) (batch : nat) (o : overload)
    : result (list nat) :=
  match from_option Some (shape self) (o_shape o) with
  | None => Raise (TypeError "len(None)")
  | Some shape =>
      let channel := default (channel self) (o_channel o) in
      let nb_dim := length shape in
      let mean := make_vector (mean self) channel in
      let amplitude := make_vector (amplitude self) channel in
      let fwhm := make_vector (fwhm self) nb_dim in
      bind (nodes shape fwhm) (fun nodes =>
      (* sample = torch.randn([batch, channel, *nodes]) *)
      let s0 := [batch; channel] ++ nodes in
      (* sample *= utils.unsqueeze(amplitude, -1, nb_dim) *)
      bind (inplace "mul_" s0 (length amplitude :: repeat 1 nb_dim)) (fun s1 =>
      (* sample = spatial.resize(sample, shape=shape, ...) *)
      let s2 := resize_to s1 shape in
      (* sample += utils.unsqueeze(mean, -1, nb_dim) *)
      inplace "add_" s2 (length mean :: repeat 1 nb_dim)))
  end.

End RandomFieldSpline.

Module RandomMultiplicativeField.
Import Py Torch Greens.

Record instance : Type := Instance {
  field : RandomFieldSpline.instance;
  sigmoid : bool
}.

(** The [mean] argument of the constructor: a Python number, a tensor, or a
    sequence (which the docstring allows and [math.log] refuses). *)
Inductive mean_arg : Type :=
  | MeanNumber (q : Q)
  | MeanTensor
  | MeanSequence.

(** [__init__], lines 596-604.  Line 598 takes [mean.log()] of a tensor,
    which never raises (it gives [-inf] at 0 and [nan] below), and
    [math.log(mean)] of anything else, which raises [ValueError] on a number
    that is not positive and [TypeError] on a sequence.  Only the
    shape-relevant attributes of the inner sampler are kept: it has no shape
    of its own, one channel and basis 3; the logarithm only enters the
    values of the field, and stands as 0 here. *)
Definition init (mean : mean_arg) (amplitude fwhm : vector_like) (sigmoid : bool)
    : result instance :=
  let self :=
    Instance (RandomFieldSpline.Instance None (Scalar 0) amplitude fwhm 1 3)
             sigmoid in
  match mean with
  | MeanNumber q =>
      if Qle_bool q 0 then Raise (ValueError "math domain error") else Ok self
  | MeanTensor => Ok self
  | MeanSequence => Raise (TypeError "must be real number, not list")
  end.

(** Lines 606-625; the result is the shape of the array returned.  The
    entry-wise functions on lines 622 and 624 keep the shape. *)
Definition forward (self : instance) (shape : list nat) : result (list nat) :=
  match shape !! 0, shape !! 1 with
  | Some batch, Some channel =>
      RandomFieldSpline.forward (field self) batch
        (Overload (Some (drop 2 shape)) (Some channel) None None)
  | _, _ => Raise (IndexError "list index out of range")
  end.

End RandomMultiplicativeField.

(* ===================================================================== *)
(** * RandomMultiplicativeField: values in floating point
      (field.py, lines 606-625) *)
(* ===================================================================== *)

Module Float.
Import SpecFloat.

(** A float is a sign, a mantissa and an exponent, a signed zero, a signed
    infinity or NaN; the operations are those of IEEE 754 with rounding to
    nearest, ties to even, for a format given by [prec] and [emax]. *)
Definition float : Type := spec_float.

(** [dtype]: the two floating-point types the sampler is used with;
    [torch.get_default_dtype()] is [float32]. *)
Inductive dtype : Type := float32 | float64.

Definition prec (dt : dtype) : Z :=
  match dt with float32 => 24 | float64 => 53 end.

Definition emax (dt : dtype) : Z :=
  match dt with float32 => 128 | float64 => 1024 end.

(** The exponent of the least subnormal number, [2 ^ emin]. *)
Definition emin (dt : dtype) : Z := SpecFloat.emin (prec dt) (emax dt).

Definition zero : float := S754_zero false.
Definition inf : float := S754_infinity false.
Definition nan : float := S754_nan.
Definition one (dt : dtype) : float := SFone (prec dt) (emax dt).

(** The float nearest to the integer [n]. *)
Definition of_Z (dt : dtype) (n : Z) : float :=
  binary_normalize (prec dt) (emax dt) n 0 false.

Definition signbit (x : float) : bool :=
  match x with
  | S754_zero s | S754_infinity s | S754_finite s _ _ => s
  | S754_nan => false
  end.

Definition is_finite (x : float) : bool :=
  match x with S754_zero _ | S754_finite _ _ _ => true | _ => false end.

(** The number a finite float stands for. *)
Definition to_Q (x : float) : Q :=
  match x with
  | S754_finite s m e => inject_Z (if s then Zneg m else Zpos m) * Qpower 2 e
  | _ => 0
  end.

(** *** The exponential

    [Tensor.exp_] belongs to torch.  It is modelled as the exponential of
    IEEE 754: the float nearest to [e ^ x], with [exp(-inf) = +0],
    [exp(+inf) = +inf] and [exp(NaN) = NaN].

    Since [7/10 > ln 2], [e ^ x < 2 ^ (emin - 1)] as soon as
    [x <= (emin - 1) * 7/10], and half the least subnormal number rounds to
    zero; likewise [e ^ x >= 2 ^ emax] as soon as [x >= emax * 7/10], which
    rounds to infinity.  Between the two bounds [e ^ x] is enclosed between
    two fixed-point numbers with [frac_bits] binary places, computed from
    the Taylor series of [e ^ (|x| / 2 ^ halvings)], squared [halvings]
    times and inverted when [x] is negative; the float returned is the
    nearest to the lower end. *)
Definition underflow_bound (dt : dtype) : Q := inject_Z (emin dt - 1) * (7 # 10).
Definition overflow_bound (dt : dtype) : Q := inject_Z (emax dt) * (7 # 10).

Definition frac_bits (dt : dtype) : Z := 2 * prec dt - emin dt + 64.
Definition halvings (dt : dtype) : Z := Z.log2_up (emax dt + prec dt) + 1.

(** Division rounded up. *)
Definition cdiv (a b : Z) : Z := (- ((- a) / b))%Z.

(** Lower and upper sums of [sum_i a^i / i!] in units of [1 / u], with
    [a = A / u <= 1/2]: [tl] and [tu] bound the term of index [i], [sl] and
    [su] the sum of the terms before it; the terms that are left out add up
    to at most twice the first of them. *)
Fixpoint taylor (u A : Z) (n : nat) (i : Z) (tl tu sl su : Z) : Z * Z :=
  match n with
  | O => (sl, su + 2 * tu)%Z
  | S n' =>
      taylor u A n' (i + 1)
        (tl * A / ((i + 1) * u))%Z (cdiv (tu * A) ((i + 1) * u))
        (sl + tl)%Z (su + tu)%Z
  end.

Definition square (u : Z) (b : Z * Z) : Z * Z :=
  ((fst b * fst b) / u, cdiv (snd b * snd b) u)%Z.

(** Bounds of [e ^ x * 2 ^ frac_bits] for [x = (-1)^s * m * 2^e]. *)
Definition enclosure (dt : dtype) (s : bool) (m : positive) (e : Z) : Z * Z :=
  let u := (2 ^ frac_bits dt)%Z in
  let j := halvings dt in
  let A := (Zpos m * 2 ^ (e - j + frac_bits dt))%Z in
  let b := Z.iter j (square u)
             (taylor u A (Z.to_nat (frac_bits dt / 4)) 0 u u 0 0) in
  if s then ((u * u) / snd b, cdiv (u * u) (fst b))%Z else b.

(** The float nearest to [m / 2 ^ frac_bits]. *)
Definition nearest (dt : dtype) (m : Z) : float :=
  binary_normalize (prec dt) (emax dt) m (- frac_bits dt) false.

Definition exp_ (dt : dtype) (x : float) : float :=
  match x with
  | S754_nan => nan
  | S754_infinity s => if s then zero else inf
  | S754_zero _ => one dt
  | S754_finite s m e =>
      if Qle_bool (to_Q x) (underflow_bound dt) then zero
      else if Qle_bool (overflow_bound dt) (to_Q x) then inf
      else nearest dt (fst (enclosure dt s m e))
  end.

(** *** The other entry-wise functions of lines 621-624 *)

Definition neg_ (x : float) : float := SFopp x.

Definition add_ (dt : dtype) (x other : float) : float :=
  SFadd (prec dt) (emax dt) x other.

Definition reciprocal_ (dt : dtype) (x : float) : float :=
  SFdiv (prec dt) (emax dt) (one dt) x.

Record tensor : Type := Tensor { tshape : list nat; elem : list nat → float }.

Definition tmap (f : float → float) (t : tensor) : tensor :=
  Tensor (tshape t) (fun idx => f (elem t idx)).

(** ** RandomMultiplicativeField.forward (lines 606-625)

    [bias] is the array returned by [self.field(...)], of type [dt]. *)
Definition multiplicative_forward (dt : dtype) (sigmoid : bool) (bias : tensor)
    : tensor :=
  if sigmoid then
    (* bias.neg_().exp_().add_(1).reciprocal_() *)
    tmap (reciprocal_ dt)
      (tmap (fun x => add_ dt x (of_Z dt 1)) (tmap (exp_ dt) (tmap neg_ bias)))
  else
    (* bias.exp_() *)
    tmap (exp_ dt) bias.

(** *** Notions used to reason about rounding

    Whether bits were lost in the shifts recorded by [mrs]; and the number
    [m * 2 ^ e] being at least 1, respectively at most 1. *)
Definition inexact (mrs : shr_record) : bool := shr_r mrs || shr_s mrs.
Definition ge1 (m e : Z) : Prop := (0 < m ∧ 2 ^ (- e) <= m)%Z.
Definition le1 (m e : Z) : Prop := (0 <= m ∧ e <= 0 ∧ m <= 2 ^ (- e))%Z.

End Float.

(* ===================================================================== *)
(** * Facts about the Python and torch helpers *)
(* ===================================================================== *)

Import Py.

Lemma floats_eqb_refl l : floats_eqb l l = true.
Proof.
  induction l as [|x l IH]; simpl; [done|].
  rewrite IH, andb_true_r. apply Qeq_bool_iff. reflexivity.
Qed.

Lemma ints_eqb_refl l : ints_eqb l l = true.
Proof. unfold ints_eqb. by rewrite bool_decide_eq_true. Qed.

Lemma ints_eqb_neq a b : a ≠ b → ints_eqb a b = false.
Proof. intros H. unfold ints_eqb. by rewrite bool_decide_eq_false. Qed.

Lemma length_make_vector v n : length (make_vector v n) = n.
Proof.
  destruct v as [x|l]; simpl.
  - by rewrite repeat_length.
  - rewrite length_app, length_take, repeat_length. lia.
Qed.

Lemma fits_rev_refl a : Torch.fits_rev a a = true.
Proof. induction a as [|x a IH]; cbn; [done|]. by rewrite Nat.eqb_refl, IH. Qed.

Lemma inplace_shape op a b r : Torch.inplace op a b = Ok r → r = a.
Proof. unfold Torch.inplace. destruct (Torch.fits a b); congruence. Qed.

Lemma complex_of_parts_shape s r :
  Torch.complex_of_parts s = Ok r → ∃ n, s = n :: r.
Proof.
  destruct s as [|n rest]; unfold Torch.complex_of_parts; [done|].
  destruct (2 <=? n); [|done]. intros [= <-]. by exists n.
Qed.

(** A scalar kernel (no elastic term) has the shape of the lattice. *)
Lemma greens_shape_scalar sh a m b vs :
  Greens.greens_shape (Greens.GreensCall sh a m b (Scalar 0) vs) = sh.
Proof. reflexivity. Qed.

(* ===================================================================== *)
(** * The kernel cache of RandomFieldGreens *)
(* ===================================================================== *)

Module FieldFacts.
Import Torch Greens RandomFieldGreens.

Lemma field_attrs_store s k vs sh :
  attrs (store s k vs sh)
  = if cache_greens s
    then <["_shape" := VInts sh]>
           (<["_voxel_size" := VFloats vs]> (<["_greens" := VKernel k]> (attrs s)))
    else attrs s.
Proof. unfold store. by destruct (cache_greens s). Qed.

(** [store] touches nothing but the three cache attributes. *)
Lemma field_store_fields s k vs sh :
  shape (store s k vs sh) = shape s ∧ channel (store s k vs sh) = channel s
  ∧ voxel_size (store s k vs sh) = voxel_size s
  ∧ cache_greens (store s k vs sh) = cache_greens s.
Proof. unfold store. by destruct (cache_greens s) eqn:E. Qed.

(** No line of [forward] ever assigns [self._channel]. *)
Lemma forward_never_sets_channel s batch o :
  attrs (after (forward s batch o)) !! "_channel" = attrs s !! "_channel".
Proof.
  unfold forward.
  destruct (from_option Some (shape s) (o_shape o)) as [sh|]; [|done].
  destruct (cache_valid s _ _ sh) as [[|]|e]; [| |done].
  - destruct (getattr s "_greens") as [[]|]; done.
  - destruct (stack _); [|done]. cbn [after]. rewrite field_attrs_store.
    destruct (cache_greens s); [|done].
    by rewrite !lookup_insert_ne.
Qed.

(** One kernel per channel is stacked; with at least one channel the stack
    has shape [(channel, *shape)]. *)
Lemma stack_greens_calls s sh n vs :
  stack (map greens_shape (greens_calls s sh (S n) vs)) = Ok (S n :: sh).
Proof.
  unfold greens_calls. rewrite map_map.
  rewrite (map_ext _ (fun _ => sh)) by (intros; apply greens_shape_scalar).
  cbn [seq map stack].
  assert (H : ∀ l : list nat, forallb (ints_eqb sh) (map (fun _ => sh) l) = true).
  { induction l as [|x l IH]; [done|]. cbn. by rewrite ints_eqb_refl. }
  rewrite H. cbn [length]. by rewrite length_map, length_seq.
Qed.

Lemma field_cache_valid_fresh s vs c sh :
  attrs s !! "_greens" = None → cache_valid s vs c sh = Ok false.
Proof. intros H. unfold cache_valid, hasattr. by rewrite H. Qed.

(** Once a kernel is stored, a request with the same voxel size reaches the
    read of [self._channel], which does not exist. *)
Lemma field_cache_valid_after_store s k vs sh c sh' :
  cache_greens s = true → attrs s !! "_channel" = None →
  cache_valid (store s k vs sh) vs c sh' = Raise (AttributeError "_channel").
Proof.
  intros Hc Hn. unfold cache_valid, hasattr, getattr.
  rewrite field_attrs_store, Hc.
  rewrite lookup_insert_ne, lookup_insert_ne, lookup_insert_eq by done.
  rewrite lookup_insert_ne, lookup_insert_eq by done. cbn [bind py_eq].
  rewrite floats_eqb_refl.
  rewrite !lookup_insert_ne by done. by rewrite Hn.
Qed.

(** The first call on a fresh instance takes the rebuilding branch. *)
Lemma field_forward_fresh s batch o sh n :
  attrs s !! "_greens" = None →
  from_option Some (shape s) (o_shape o) = Some sh →
  default (channel s) (o_channel o) = S n →
  let vs := make_vector (default (voxel_size s) (o_voxel_size o)) (length sh) in
  let calls := greens_calls s sh (S n) vs in
  let greens := Kernel (S n :: sh) calls ElementwiseSqrt in
  forward s batch o
  = Outcome (store s greens vs sh) calls
            (sample batch (S n) sh greens (Some (make_vector (mean s) (S n)))).
Proof.
  intros He Hsh En. cbn zeta. unfold forward. rewrite Hsh, En.
  rewrite field_cache_valid_fresh by done.
  by rewrite stack_greens_calls.
Qed.

(** On a caching instance, any request that builds a kernel makes every
    later request with the same voxel size fail, whatever its batch size and
    whatever its lattice shape of the same dimension. *)
Lemma repeat_raises s batch o sh batch' sh' :
  cache_greens s = true →
  attrs s !! "_greens" = None → attrs s !! "_channel" = None →
  from_option Some (shape s) (o_shape o) = Some sh →
  0 < default (channel s) (o_channel o) →
  length sh' = length sh →
  let first := forward s batch o in
  let again := forward (after first) batch'
                 (Overload (Some sh') (o_channel o) (o_voxel_size o) (o_mean o)) in
  built first ≠ [] ∧ built again = [] ∧ after again = after first
  ∧ ret again = Raise (AttributeError "_channel").
Proof.
  intros Hc He Hn Hsh Hch Hlen.
  destruct (default (channel s) (o_channel o)) as [|n] eqn:En; [lia|].
  cbn zeta. rewrite (field_forward_fresh s batch o sh n) by done. cbn [after built].
  split; [by unfold greens_calls; cbn|].
  set (vs := make_vector _ (length sh)).
  set (k := Kernel _ _ _).
  destruct (field_store_fields s k vs sh) as (_ & Hch' & Hvs' & _).
  unfold forward. cbn [o_shape o_channel o_voxel_size from_option].
  rewrite Hch', Hvs', En, Hlen. fold vs.
  by rewrite field_cache_valid_after_store.
Qed.

(** Whatever [forward] returns has shape [(batch, channel, *shape)]. *)
Lemma forward_shape s batch o sh f :
  from_option Some (shape s) (o_shape o) = Some sh →
  ret (forward s batch o) = Ok f →
  field_shape f = [batch; default (channel s) (o_channel o)] ++ sh.
Proof.
  intros Hsh. unfold forward. rewrite Hsh.
  assert (Hs : ∀ k m, sample batch (default (channel s) (o_channel o)) sh k m = Ok f →
    field_shape f = [batch; default (channel s) (o_channel o)] ++ sh).
  { intros k m. unfold sample.
    destruct (inplace "mul_" _ _) as [s1|] eqn:E1; [|done]. cbn [bind].
    apply inplace_shape in E1. subst s1. cbn [complex_of_parts app Nat.leb bind].
    destruct m as [m|]; [|done].
    destruct (inplace "add_" _ _) as [s3|] eqn:E3; [|done]. cbn [bind].
    apply inplace_shape in E3. by intros [= <-]. }
  destruct (cache_valid s _ _ sh) as [[|]|e]; [| |done].
  - destruct (getattr s "_greens") as [[]|]; try done. apply Hs.
  - destruct (stack _); [|done]. apply Hs.
Qed.

End FieldFacts.

(* ===================================================================== *)
(** * The kernel cache of RandomGridGreens *)
(* ===================================================================== *)

Module GridFacts.
Import Torch Greens RandomGridGreens.

Lemma grid_attrs_store s k vs sh :
  attrs (store s k vs sh)
  = if cache_greens s
    then <["_shape" := VInts sh]>
           (<["_voxel_size" := VFloats vs]> (<["_greens" := VKernel k]> (attrs s)))
    else attrs s.
Proof. unfold store. by destruct (cache_greens s). Qed.

Lemma grid_store_fields s k vs sh :
  shape (store s k vs sh) = shape s
  ∧ voxel_size (store s k vs sh) = voxel_size s
  ∧ cache_greens (store s k vs sh) = cache_greens s.
Proof. unfold store. by destruct (cache_greens s) eqn:E. Qed.

Lemma grid_cache_valid_fresh s vs sh :
  attrs s !! "_greens" = None → cache_valid s vs sh = Ok false.
Proof. intros H. unfold cache_valid, hasattr. by rewrite H. Qed.

(** After a kernel is stored, the cache answers for exactly the stored voxel
    size and shape. *)
Lemma grid_cache_valid_after_store s k vs sh vs' sh' :
  cache_greens s = true →
  cache_valid (store s k vs sh) vs' sh' = Ok (floats_eqb vs vs' && ints_eqb sh sh').
Proof.
  intros Hc. unfold cache_valid, hasattr, getattr.
  rewrite grid_attrs_store, Hc.
  rewrite lookup_insert_ne, lookup_insert_ne, lookup_insert_eq by done.
  rewrite lookup_insert_ne, lookup_insert_eq by done. cbn [bind py_eq].
  destruct (floats_eqb vs vs'); [|done].
  by rewrite lookup_insert_eq.
Qed.

Lemma greens_after_store s k vs sh :
  cache_greens s = true → getattr (store s k vs sh) "_greens" = Ok (VKernel k).
Proof.
  intros Hc. unfold getattr. rewrite grid_attrs_store, Hc.
  by rewrite lookup_insert_ne, lookup_insert_ne, lookup_insert_eq.
Qed.

Lemma fits_scaled_rows l a b :
  fits (l ++ [a; b]) (unsqueeze_last (removelast (l ++ [a; b]))) = true.
Proof.
  replace (l ++ [a; b]) with ((l ++ [a]) ++ [b]) by (by rewrite <- app_assoc).
  rewrite removelast_last. unfold unsqueeze_last, fits.
  rewrite !rev_unit. cbn [fits_rev].
  rewrite Nat.eqb_refl, orb_true_r, Nat.eqb_refl. cbn. apply fits_rev_refl.
Qed.

(** The square-root stage never fails, and the kernel it returns is the one
    built from the call it is given. *)
Lemma square_root_ok s sh vs :
  ∃ k, square_root (make_list2 (lame s)) (greens_call_of s sh vs) = Ok k
       ∧ k_calls k = [greens_call_of s sh vs].
Proof.
  unfold square_root, svd_shapes, greens_shape. cbn [greens_call_of g_lame g_shape].
  destruct (any_nonzero (make_list2 (lame s))); [|eauto].
  unfold inplace. rewrite fits_scaled_rows. cbn. eauto.
Qed.

(** The first call on an instance without cache builds one kernel. *)
Lemma grid_forward_fresh s batch o sh :
  attrs s !! "_greens" = None →
  from_option Some (shape s) (o_shape o) = Some sh →
  let vs := make_vector (default (voxel_size s) (o_voxel_size o)) (length sh) in
  let call := greens_call_of s sh vs in
  ∃ k, square_root (make_list2 (lame s)) call = Ok k ∧ k_calls k = [call]
       ∧ forward s batch o = Outcome (store s k vs sh) [call] (sample batch sh k).
Proof.
  intros He Hsh. cbn zeta.
  destruct (square_root_ok s sh
    (make_vector (default (voxel_size s) (o_voxel_size o)) (length sh)))
    as (k & Hk & Hcalls).
  exists k. split; [done|]. split; [done|].
  unfold forward. rewrite Hsh, grid_cache_valid_fresh by done. by rewrite Hk.
Qed.

(** A request answered from the cache: nothing is built, nothing is stored,
    and the noise is filtered by the stored kernel. *)
Lemma forward_cached s batch o sh k :
  from_option Some (shape s) (o_shape o) = Some sh →
  cache_valid s (make_vector (default (voxel_size s) (o_voxel_size o)) (length sh)) sh
    = Ok true →
  getattr s "_greens" = Ok (VKernel k) →
  forward s batch o = Outcome s [] (sample batch sh k).
Proof. intros Hsh Hv Hg. unfold forward. by rewrite Hsh, Hv, Hg. Qed.

(** Cache correctness for the vector-field sampler: after a call that built
    a kernel, the same request is answered by that kernel without a call to
    [spatial.greens], and returns what the first call returned. *)
Lemma repeat_reuses s batch o sh :
  cache_greens s = true → attrs s !! "_greens" = None →
  from_option Some (shape s) (o_shape o) = Some sh →
  let first := forward s batch o in
  let again := forward (after first) batch o in
  length (built first) = 1 ∧ built again = [] ∧ after again = after first
  ∧ ret again = ret first.
Proof.
  intros Hc He Hsh. cbn zeta.
  destruct (grid_forward_fresh s batch o sh He Hsh) as (k & _ & _ & ->).
  cbn [after built ret]. split; [done|].
  set (vs := make_vector _ (length sh)).
  destruct (grid_store_fields s k vs sh) as (Hs' & Hvs' & _).
  rewrite (forward_cached (store s k vs sh) batch o sh k).
  - done.
  - by rewrite Hs'.
  - rewrite Hvs'. fold vs. rewrite grid_cache_valid_after_store by done.
    by rewrite floats_eqb_refl, ints_eqb_refl.
  - by apply greens_after_store.
Qed.

(** ... and a request for another lattice shape builds a new kernel. *)
Lemma shape_change_rebuilds s batch o sh sh' :
  cache_greens s = true → attrs s !! "_greens" = None →
  from_option Some (shape s) (o_shape o) = Some sh →
  sh' ≠ sh →
  let first := forward s batch o in
  let other := forward (after first) batch
                 (Overload (Some sh') (o_channel o) (o_voxel_size o) (o_mean o)) in
  ∃ call, built other = [call] ∧ g_shape call = sh'.
Proof.
  intros Hc He Hsh Hne. cbn zeta.
  destruct (grid_forward_fresh s batch o sh He Hsh) as (k & _ & _ & ->).
  cbn [after]. set (vs := make_vector _ (length sh)).
  destruct (grid_store_fields s k vs sh) as (_ & Hvs' & _).
  unfold forward. cbn [o_shape o_voxel_size from_option].
  rewrite grid_cache_valid_after_store by done.
  rewrite (ints_eqb_neq sh sh') by done. rewrite andb_false_r.
  set (vs' := make_vector _ (length sh')).
  destruct (square_root_ok (store s k vs sh) sh' vs') as (k' & -> & _).
  cbn [built]. by eexists.
Qed.

(** Changing the weights of an instance does not touch what [forward] looks
    at before it reuses the stored kernel. *)
Lemma stale_reuse s batch o sh k a m b l :
  from_option Some (shape s) (o_shape o) = Some sh →
  cache_valid s (make_vector (default (voxel_size s) (o_voxel_size o)) (length sh)) sh
    = Ok true →
  getattr s "_greens" = Ok (VKernel k) →
  forward (set_weights s a m b l) batch o
  = Outcome (set_weights s a m b l) [] (sample batch sh k).
Proof. intros Hsh Hv Hg. by apply forward_cached. Qed.

(** After a call that built a kernel, new weights on the same instance are
    not looked at: the next call builds nothing and filters its noise by the
    kernel of the old weights. *)
Lemma grid_stale_after_build s batch o sh a m b l :
  cache_greens s = true → attrs s !! "_greens" = None →
  from_option Some (shape s) (o_shape o) = Some sh →
  let first := forward s batch o in
  let next := forward (set_weights (after first) a m b l) batch o in
  built next = [] ∧ ret next = ret first.
Proof.
  intros Hc He Hsh. cbn zeta.
  destruct (grid_forward_fresh s batch o sh He Hsh) as (k & _ & _ & ->).
  cbn [after ret]. set (vs := make_vector _ (length sh)).
  destruct (grid_store_fields s k vs sh) as (Hs' & Hvs' & _).
  rewrite (stale_reuse (store s k vs sh) batch o sh k).
  - done.
  - by rewrite Hs'.
  - rewrite Hvs'. fold vs. rewrite grid_cache_valid_after_store by done.
    by rewrite floats_eqb_refl, ints_eqb_refl.
  - by apply greens_after_store.
Qed.

(** The default vector-field sampler on a 16 x 16 lattice: one matrix kernel,
    and a field of shape [(batch, 16, 16, 2)]. *)
Example grid_forward_default :
  let s := init (Some [16; 16]) 0 0.0001 0.001 0.2 (Vector [0.05; 0.2]%Q)
             (Scalar 1) true in
  ∃ call, forward s 3 no_overload
          = Outcome (store s (Kernel [16; 16; 2; 2] [call] SvdRows) [1; 1]%Q [16; 16])
                    [call]
                    (Ok (Field [3; 16; 16; 2] (Kernel [16; 16; 2; 2] [call] SvdRows))).
Proof. eexists. vm_compute. reflexivity. Qed.

(** Without elastic term the kernel is scalar and the field has the same
    shape. *)
Example grid_forward_no_lame :
  let s := init (Some [16; 16]) 0 0.0001 0.001 0.2 (Scalar 0) (Scalar 1) true in
  ∃ call, ret (forward s 3 no_overload)
          = Ok (Field [3; 16; 16; 2] (Kernel [16; 16] [call] ElementwiseSqrt)).
Proof. eexists. vm_compute. reflexivity. Qed.

End GridFacts.

(* ===================================================================== *)
(** * Samplers constructed with [cache_greens=False] *)
(* ===================================================================== *)

Module NoCache.
Import Torch Greens.

Lemma field_call (s : RandomFieldGreens.instance) batch o :
  RandomFieldGreens.cache_greens s = false →
  RandomFieldGreens.attrs s !! "_greens" = None →
  let r := RandomFieldGreens.forward s batch o in
  after r = s
  ∧ ∀ sh, from_option Some (RandomFieldGreens.shape s) (o_shape o) = Some sh →
      built r = RandomFieldGreens.greens_calls s sh
                  (default (RandomFieldGreens.channel s) (o_channel o))
                  (make_vector (default (RandomFieldGreens.voxel_size s) (o_voxel_size o))
                               (length sh)).
Proof.
  intros Hc He. cbn zeta. unfold RandomFieldGreens.forward.
  destruct (from_option Some _ _) as [sh|]; [|done].
  rewrite FieldFacts.field_cache_valid_fresh by done.
  destruct (stack _); cbn [after built].
  - unfold RandomFieldGreens.store. rewrite Hc. split; [done|]. by intros ? [= <-].
  - split; [done|]. by intros ? [= <-].
Qed.

Lemma grid_call (s : RandomGridGreens.instance) batch o :
  RandomGridGreens.cache_greens s = false →
  RandomGridGreens.attrs s !! "_greens" = None →
  let r := RandomGridGreens.forward s batch o in
  after r = s
  ∧ ∀ sh, from_option Some (RandomGridGreens.shape s) (o_shape o) = Some sh →
      built r = [RandomGridGreens.greens_call_of s sh
                  (make_vector (default (RandomGridGreens.voxel_size s) (o_voxel_size o))
                               (length sh))].
Proof.
  intros Hc He. cbn zeta. unfold RandomGridGreens.forward.
  destruct (from_option Some _ _) as [sh|]; [|done].
  rewrite GridFacts.grid_cache_valid_fresh by done.
  destruct (RandomGridGreens.square_root _ _); cbn [after built].
  - unfold RandomGridGreens.store. rewrite Hc. split; [done|]. by intros ? [= <-].
  - split; [done|]. by intros ? [= <-].
Qed.

End NoCache.

(* ===================================================================== *)
(** * Claims about the kernel cache and the shape of the sampled field *)
(* ===================================================================== *)

Import Greens.

(** C1 (fails on the scalar-field sampler).  The claim: with caching enabled,
    a second call with the same (shape, voxel size, channel count) returns
    from the cached kernel, and a call with another shape rebuilds it.
    [RandomFieldGreens.forward] compares [self._channel] on line 290, an
    attribute that lines 313-316 never store.  On a 4-channel sampler over a
    4 x 4 lattice the first call builds four kernels and returns; the same
    call again raises [AttributeError], and so does a call for an 8 x 8
    lattice, which should have rebuilt the kernel. *)
Theorem C1_scalar_sampler_second_call_raises :
  let s := RandomFieldGreens.init (Some [4; 4]) (Scalar 0) 4
             (Scalar 0.001) (Scalar 0.1) (Scalar 0) (Scalar 1) true in
  let first := RandomFieldGreens.forward s 4 no_overload in
  let again := RandomFieldGreens.forward (after first) 4 no_overload in
  let other := RandomFieldGreens.forward (after first) 4
                 (Overload (Some [8; 8]) None None None) in
  (∃ k, ret first = Ok (Field [4; 4; 4; 4] k)) ∧ length (built first) = 4
  ∧ ret again = Raise (AttributeError "_channel") ∧ built again = []
  ∧ ret other = Raise (AttributeError "_channel") ∧ built other = [].
Proof. cbn zeta. split; [eexists|]; vm_compute; repeat split. Qed.

(** C3 (fails on the code).  The claim: the scalar-field sampler called with
    shape=(16,16), channel=1, batch=1000, absolute=1e-3, membrane=0.1,
    bending=0, voxel_size=1 returns an array of shape (1000, 1, 16, 16).
    Line 320 multiplies the noise of shape (2, 1000, 1, 16, 16) in place by
    the kernel of shape (1, 16, 16) with an axis appended at the end, that
    is (1, 16, 16, 1); aligned from the last axis this needs the channel axis
    of the noise to grow from 1 to 16, which an in-place product refuses:
    the call raises and returns nothing. *)
Theorem C3_scenario_raises :
  ret (RandomFieldGreens.forward
         (RandomFieldGreens.init (Some [16; 16]) (Scalar 0) 1
            (Scalar 0.001) (Scalar 0.1) (Scalar 0) (Scalar 1) true)
         1000 no_overload)
  = Raise (RuntimeError "mul_: output shape doesn't match the broadcast shape").
Proof. vm_compute. reflexivity. Qed.

(** C4 (fails on the scalar-field sampler).  The claim: after a kernel has
    been built, changing only the penalty weights makes the next call reuse
    the cached kernel.  On [RandomFieldGreens] the next call builds nothing,
    but it does not reuse the kernel either: it raises on the read of
    [self._channel] (the defect of C1). *)
Theorem C4_scalar_sampler_new_weights_raises :
  let s := RandomFieldGreens.init (Some [4; 4]) (Scalar 0) 4
             (Scalar 0.001) (Scalar 0.1) (Scalar 0) (Scalar 1) true in
  let first := RandomFieldGreens.forward s 4 no_overload in
  let s' := RandomFieldGreens.set_weights (after first)
              (Scalar 1) (Scalar 2) (Scalar 3) in
  let next := RandomFieldGreens.forward s' 4 no_overload in
  (∃ k, ret first = Ok (Field [4; 4; 4; 4] k))
  ∧ ret next = Raise (AttributeError "_channel") ∧ built next = [].
Proof. cbn zeta. split; [eexists|]; vm_compute; repeat split. Qed.



(* ===================================================================== *)
(** * Broadcasting and sums *)
(* ===================================================================== *)

Module NumericFacts.
Import Numeric.
Local Open Scope R_scope.

Lemma rsum_ext n f g :
  (∀ j, (j < n)%nat → f j = g j) → rsum n f = rsum n g.
Proof.
  intros H. unfold rsum. f_equal. apply map_ext_in.
  intros j Hj. apply H. apply in_seq in Hj. lia.
Qed.

Lemma rsum_scale n c f : rsum n (fun j => c * f j) = c * rsum n f.
Proof.
  unfold rsum. induction (seq 0 n) as [|j l IH]; cbn; [lra|].
  rewrite IH. lra.
Qed.

(** Reading an operand at an index inside its own shape is reading it
    there. *)
Lemma zip_in_range (sh idx : list nat) :
  Forall2 lt idx sh →
  zip_with (fun s i => if (s =? 1)%nat then 0%nat else i) sh idx = idx.
Proof.
  induction 1 as [|i s idx sh Hlt _ IH]; cbn; [done|].
  rewrite IH. destruct (Nat.eqb_spec s 1); [|done]. f_equal. lia.
Qed.

(** Leading axes that the operand does not have are dropped. *)
Lemma bidx_suffix (sh pre idx : list nat) :
  length idx = length sh →
  bidx sh (pre ++ idx)
  = zip_with (fun s i => if (s =? 1)%nat then 0%nat else i) sh idx.
Proof.
  intros H. unfold bidx. rewrite length_app, <- H.
  replace (length pre + length idx - length idx)%nat with (length pre) by lia.
  by rewrite drop_app_length.
Qed.

Lemma bidx_in_range (sh pre idx : list nat) :
  Forall2 lt idx sh → bidx sh (pre ++ idx) = idx.
Proof.
  intros H. rewrite bidx_suffix by (by eapply Forall2_length).
  by apply zip_in_range.
Qed.

Lemma bidx_exact (sh idx : list nat) : Forall2 lt idx sh → bidx sh idx = idx.
Proof. apply (bidx_in_range sh []). Qed.

Lemma bshape_rev_prefix (l r : list nat) : bshape_rev (l ++ r) l = l ++ r.
Proof.
  induction l as [|x l IH]; cbn; [by destruct r|].
  rewrite IH. by destruct (x =? 1)%nat.
Qed.

End NumericFacts.

(* ===================================================================== *)
(** * The spectral filter of the vector-field sampler *)
(* ===================================================================== *)

Module FilterFacts.
Import Numeric NumericFacts.
Local Open Scope R_scope.

Section Site.

(** One entry of the noise array: part [p] (real or imaginary), batch element
    [b], lattice site [x], vector component [i]. *)
Variables (S : list nat) (B : nat).
Variables (p b : nat) (x : list nat) (i : nat).
Hypothesis Hp : (p < 2)%nat.
Hypothesis Hb : (b < B)%nat.
Hypothesis Hx : Forall2 lt x S.
Hypothesis Hi : (i < length S)%nat.

Lemma index_in_range : Forall2 lt ([p; b] ++ x ++ [i]) ([2; B] ++ S ++ [length S])%nat.
Proof.
  constructor; [done|]. constructor; [done|].
  apply Forall2_app; [done|]. by constructor.
Qed.

Lemma product_shape :
  bshape ([2; B] ++ S ++ [length S])%nat (S ++ [1%nat]) = ([2; B] ++ S ++ [length S])%nat.
Proof.
  unfold bshape. rewrite !rev_app_distr. cbn [rev app bshape_rev].
  replace (if (length S =? 1)%nat then 1%nat else length S) with (length S)
    by (by destruct (Nat.eqb_spec (length S) 1)).
  rewrite bshape_rev_prefix. cbn [rev]. rewrite !rev_app_distr, rev_involutive.
  by cbn.
Qed.

(** Without elastic term: the entry is multiplied by the kernel at its site
    and divided by the square root of the voxel size of its own axis. *)
Lemma filter_scalar (greens : tensor) (voxel_size : list R) (sample : tensor) :
  tshape sample = ([2; B] ++ S ++ [length S])%nat →
  tshape greens = S →
  length voxel_size = length S →
  elem (spectral_filter (length S) greens voxel_size sample) ([p; b] ++ x ++ [i])
  = elem sample ([p; b] ++ x ++ [i]) * elem greens x / sqrt (nth i voxel_size 0).
Proof.
  intros Hs Hg Hv. unfold spectral_filter. rewrite Hg, Nat.ltb_irrefl.
  unfold div, mul, binop. cbn [elem tshape unsqueeze_last tsqrt tmap of_list].
  rewrite Hs, Hg, Hv, product_shape.
  rewrite !(bidx_exact _ _ index_in_range).
  rewrite (bidx_suffix (S ++ [1%nat]) [p; b] (x ++ [i]))
    by (rewrite !length_app; cbn; by rewrite (Forall2_length _ _ _ Hx)).
  rewrite zip_with_app by (symmetry; by eapply Forall2_length).
  rewrite (zip_in_range _ _ Hx). cbn [zip_with Nat.eqb].
  rewrite removelast_last.
  replace ([p; b] ++ x ++ [i]) with (([p; b] ++ x) ++ [i]) by (by rewrite <- app_assoc).
  rewrite (bidx_suffix [length S] ([p; b] ++ x) [i]) by done.
  cbn [zip_with hd].
  by destruct (Nat.eqb_spec (length S) 1) as [E|E]; [replace i with 0%nat by lia|].
Qed.

(** With elastic term: the matrix at the site is applied to the vector at the
    site, within the same part and batch element. *)
Lemma filter_lame (greens : tensor) (voxel_size : list R) (sample : tensor) :
  tshape sample = ([2; B] ++ S ++ [length S])%nat →
  tshape greens = (S ++ [length S; length S])%nat →
  elem (spectral_filter (length S) greens voxel_size sample) ([p; b] ++ x ++ [i])
  = rsum (length S) (fun j => elem greens (x ++ [i; j])
                              * elem sample ([p; b] ++ x ++ [j])).
Proof.
  intros Hs Hg. unfold spectral_filter. rewrite Hg.
  replace (length S <? length (S ++ [length S; length S]))%nat with true
    by (symmetry; apply Nat.ltb_lt; rewrite length_app; cbn; lia).
  unfold matvec. cbn [elem]. rewrite Hs, Hg.
  replace (S ++ [length S; length S]) with ((S ++ [length S]) ++ [length S])
    by (by rewrite <- app_assoc).
  rewrite List.last_last, !removelast_last.
  replace ([2; B] ++ S ++ [length S])%nat with (([2; B] ++ S) ++ [length S])%nat
    by (by rewrite <- app_assoc).
  replace ([p; b] ++ x ++ [i]) with (([p; b] ++ x) ++ [i]) by (by rewrite <- app_assoc).
  rewrite !removelast_last, List.last_last.
  rewrite (bidx_in_range S [p; b] x Hx).
  rewrite (bidx_exact ([2%nat; B] ++ S) ([p; b] ++ x))
    by (constructor; [done|]; constructor; done).
  apply rsum_ext. intros j _. by rewrite <- !app_assoc.
Qed.

End Site.

End FilterFacts.

(* ===================================================================== *)
(** * Claim about the spectral filter *)
(* ===================================================================== *)

Import Numeric.

Lemma sqrt_4 : sqrt 4 = 2%R.
Proof. replace 4%R with (2 * 2)%R by lra. apply sqrt_square. lra. Qed.

Lemma sqrt_16 : sqrt 16 = 4%R.
Proof. replace 16%R with (4 * 4)%R by lra. apply sqrt_square. lra. Qed.

(** C5, as the code has it.  In the spectral filter of the vector-field
    sampler, for the entry of part [p] (real or imaginary), batch element
    [b], site [x] and component [i] of the noise:
    with a scalar kernel (no elastic term) the entry is multiplied by the
    square-rooted kernel at [x] and divided by the square root of the voxel
    size of axis [i] -- not of the voxel volume;
    with a matrix kernel (elastic term) it becomes the [i]-th component of
    the product of the matrix at [x] with the noise vector at [x].
    Both parts and all batch elements are treated alike, each from its own
    noise only. *)
Theorem C5_spectral_filter_entry
    (S : list nat) (B p b : nat) (x : list nat) (i : nat)
    (greens : tensor) (voxel_size : list R) (sample : tensor) :
  p < 2 → b < B → Forall2 lt x S → i < length S →
  tshape sample = [2; B] ++ S ++ [length S] →
  length voxel_size = length S →
  (tshape greens = S →
     elem (spectral_filter (length S) greens voxel_size sample) ([p; b] ++ x ++ [i])
     = (elem sample ([p; b] ++ x ++ [i]) * elem greens x
        / sqrt (nth i voxel_size 0%R))%R)
  ∧ (tshape greens = S ++ [length S; length S] →
     elem (spectral_filter (length S) greens voxel_size sample) ([p; b] ++ x ++ [i])
     = rsum (length S) (fun j => (elem greens (x ++ [i; j])
                                  * elem sample ([p; b] ++ x ++ [j]))%R)).
Proof.
  intros Hp Hb Hx Hi Hs Hv. split; intros Hg.
  - by apply (FilterFacts.filter_scalar S B).
  - by apply (FilterFacts.filter_lame S B).
Qed.

Lemma C5_spectral_filter_entry_witness :
  let greens := Tensor [2; 2] (fun idx => INR (1 + hd 0 idx)) in
  let matrix := Tensor [2; 2; 2; 2] (fun idx => INR (List.last idx 0)) in
  let sample := Tensor [2; 1; 2; 2; 2] (fun idx => INR (1 + hd 0 idx)) in
  (elem (spectral_filter 2 greens [4; 9]%R sample) [1; 0; 1; 0; 1]
   = (elem sample [1; 0; 1; 0; 1]%nat * elem greens [1; 0]%nat
      / sqrt (nth 1 [4; 9] 0))%R)
  ∧ (elem (spectral_filter 2 matrix [4; 9]%R sample) [1; 0; 1; 0; 1]
     = rsum 2 (fun j => (elem matrix ([1; 0] ++ [1; j])%nat
                         * elem sample ([1; 0] ++ [1; 0] ++ [j])%nat)%R)).
Proof.
  cbn zeta.
  split.
  - apply (C5_spectral_filter_entry [2; 2] 1 1 0 [1; 0] 1); cbn; try lia; try done.
    repeat constructor.
  - apply (C5_spectral_filter_entry [2; 2] 1 1 0 [1; 0] 1 _ [4; 9]%R);
      cbn; try lia; try done.
    repeat constructor.
Defined.

(** C5, as the claim words it, fails: with voxel size (4, 4) on a 2 x 2
    lattice, kernel 1 and noise 1, the code yields 1 / sqrt 4 = 1/2, while
    dividing by the square root of the voxel volume would yield
    1 / sqrt 16 = 1/4. *)
Lemma C5_voxel_volume_counterexample :
  let greens := Tensor [2; 2] (fun _ => 1%R) in
  let sample := Tensor [2; 1; 2; 2; 2] (fun _ => 1%R) in
  elem (spectral_filter 2 greens [4; 4]%R sample) [0; 0; 0; 0; 0] = (1 / 2)%R
  ∧ elem (spec_filter_by_volume greens [4; 4]%R sample) [0; 0; 0; 0; 0] = (1 / 4)%R
  ∧ elem (spectral_filter 2 greens [4; 4]%R sample) [0; 0; 0; 0; 0]
    ≠ elem (spec_filter_by_volume greens [4; 4]%R sample) [0; 0; 0; 0; 0].
Proof.
  cbn zeta.
  assert (H1 : elem (spectral_filter 2 (Tensor [2; 2] (fun _ => 1%R)) [4; 4]%R
                 (Tensor [2; 1; 2; 2; 2] (fun _ => 1%R))) [0; 0; 0; 0; 0] = (1 / 2)%R).
  { cbn. rewrite sqrt_4. lra. }
  assert (H2 : elem (spec_filter_by_volume (Tensor [2; 2] (fun _ => 1%R)) [4; 4]%R
                 (Tensor [2; 1; 2; 2; 2] (fun _ => 1%R))) [0; 0; 0; 0; 0] = (1 / 4)%R).
  { cbn. replace (4 * (4 * 1))%R with 16%R by lra. rewrite sqrt_16. lra. }
  split; [done|]. split; [done|]. rewrite H1, H2. lra.
Qed.

(* ===================================================================== *)
(** * The square-root stage *)
(* ===================================================================== *)

Module RootFacts.
Import NumericFacts.
Local Open Scope R_scope.

(** Scalar kernels: the square of the root is the kernel, wherever the
    kernel is not negative. *)
Lemma sqrt_scalar_square (greens : tensor) (idx : list nat) :
  0 <= elem greens idx →
  elem (sqrt_scalar greens) idx * elem (sqrt_scalar greens) idx = elem greens idx.
Proof. intros H. cbn. by apply sqrt_sqrt. Qed.

Section Frequency.

Variables (S : list nat) (d : nat) (x : list nat).
Hypothesis Hx : Forall2 lt x S.

(** Line 425 scales row [i] of [u] by the root of singular value [i]: the
    appended axis of [scale] is aligned with the column axis of [u]. *)
Lemma sqrt_lame_entry (u scale : tensor) (i j : nat) :
  tshape scale = (S ++ [d])%nat → (i < d)%nat →
  elem (sqrt_lame u scale) (x ++ [i; j])
  = elem u (x ++ [i; j]) * sqrt (elem scale (x ++ [i])).
Proof.
  intros Hs Hi. unfold sqrt_lame, mul_, unsqueeze_last, tsqrt, tmap.
  cbn [elem tshape]. rewrite Hs. f_equal. f_equal. f_equal.
  replace (x ++ [i; j]) with ([] ++ (x ++ [i]) ++ [j]) by (by rewrite <- app_assoc).
  assert (Hlen : length x = length S) by (by eapply Forall2_length).
  rewrite bidx_suffix by (rewrite !length_app; cbn; lia).
  rewrite zip_with_app by (rewrite !length_app; cbn; lia).
  rewrite zip_in_range by (apply Forall2_app; [done|by constructor]).
  cbn [zip_with Nat.eqb]. by rewrite removelast_last.
Qed.

(** Hence [R R^T] is the diagonal matrix of the singular values, whatever
    the singular vectors are. *)
Lemma gram_sqrt_lame (k u s v : tensor) (i j : nat) :
  is_svd d x k u s v → tshape s = (S ++ [d])%nat →
  (i < d)%nat → (j < d)%nat →
  gram d (sqrt_lame u s) x i j = kronecker i j * elem s (x ++ [i]).
Proof.
  intros Hsvd Hs Hi Hj. unfold gram.
  rewrite (rsum_ext _ _ (fun c => (sqrt (elem s (x ++ [i])) * sqrt (elem s (x ++ [j])))
                                  * (elem u (x ++ [i; c]) * elem u (x ++ [j; c])))).
  2:{ intros c _. rewrite !sqrt_lame_entry by done. ring. }
  rewrite rsum_scale, (svd_u_rows _ _ _ _ _ _ Hsvd) by done.
  unfold kronecker. destruct (Nat.eqb_spec i j) as [->|_]; [|ring].
  rewrite sqrt_sqrt by (by apply (svd_nonneg _ _ _ _ _ _ Hsvd)). ring.
Qed.

(** The factor of section 4.2 would have given the kernel back (for a
    symmetric kernel, whose left and right singular vectors coincide). *)
Lemma gram_spec_sqrt_lame (k u s : tensor) (i j : nat) :
  is_svd d x k u s u → (i < d)%nat → (j < d)%nat →
  gram d (spec_sqrt_lame u s) x i j = elem k (x ++ [i; j]).
Proof.
  intros Hsvd Hi Hj. unfold gram.
  rewrite (svd_product _ _ _ _ _ _ Hsvd) by done.
  apply rsum_ext. intros c Hc. unfold spec_sqrt_lame. cbn [elem].
  replace (x ++ [i; c]) with ((x ++ [i]) ++ [c]) by (by rewrite <- app_assoc).
  replace (x ++ [j; c]) with ((x ++ [j]) ++ [c]) by (by rewrite <- app_assoc).
  rewrite !removelast_last, !List.last_last.
  transitivity (elem u ((x ++ [i]) ++ [c])
                * (sqrt (elem s (x ++ [c])) * sqrt (elem s (x ++ [c])))
                * elem u ((x ++ [j]) ++ [c])); [ring|].
  by rewrite sqrt_sqrt by (by apply (svd_nonneg _ _ _ _ _ _ Hsvd)).
Qed.

End Frequency.

(** The decomposition recorded with [kernel_2x2] is one. *)
Lemma is_svd_2x2 : is_svd 2 [] kernel_2x2 vectors_2x2 values_2x2 vectors_2x2.
Proof.
  assert (Hcases : ∀ i, (i < 2)%nat → i = 0%nat ∨ i = 1%nat) by lia.
  split.
  - intros i j Hi Hj.
    destruct (Hcases i Hi) as [-> | ->], (Hcases j Hj) as [-> | ->]; cbn; lra.
  - intros i j Hi Hj.
    destruct (Hcases i Hi) as [-> | ->], (Hcases j Hj) as [-> | ->]; cbn; lra.
  - intros i j Hi Hj.
    destruct (Hcases i Hi) as [-> | ->], (Hcases j Hj) as [-> | ->]; cbn; lra.
  - intros c Hc. destruct (Hcases c Hc) as [-> | ->]; cbn; lra.
  - intros c c' Hle Hc'.
    destruct (Hcases c' Hc') as [-> | ->];
      destruct (Hcases c ltac:(lia)) as [-> | ->]; cbn; try lra; lia.
Qed.

End RootFacts.

(** C2 (fails on the code for vector kernels).  The claim: the square-rooted
    kernel [R] satisfies [R R^T = kernel], per frequency, for vector kernels
    with non-zero Lame terms.  Lines 423-425 scale the rows of [U], not its
    columns, so [R = diag(sqrt s) U] and [R R^T = diag(s)].  For the
    symmetric positive-definite kernel [kernel_2x2], whichever decomposition
    [torch.svd] returns, the off-diagonal entry of [R R^T] is 0 while that of
    the kernel is 36/25. *)
Theorem C2_lame_root_gram_is_diagonal (u s v : tensor) :
  is_svd 2 [] kernel_2x2 u s v → tshape s = [2] →
  gram 2 (sqrt_lame u s) [] 0 1 = 0%R
  ∧ elem kernel_2x2 [0; 1] = (36 / 25)%R
  ∧ gram 2 (sqrt_lame u s) [] 0 1 ≠ elem kernel_2x2 [0; 1].
Proof.
  intros Hsvd Hs.
  assert (H : gram 2 (sqrt_lame u s) [] 0 1 = 0%R).
  { rewrite (RootFacts.gram_sqrt_lame [] 2 [] ltac:(constructor) _ _ _ _ 0 1 Hsvd Hs)
      by lia.
    unfold kronecker. cbn. lra. }
  split; [done|]. split; [done|]. rewrite H. cbn. lra.
Qed.

Lemma C2_lame_root_gram_is_diagonal_witness :
  gram 2 (sqrt_lame vectors_2x2 values_2x2) [] 0 1 = 0%R
  ∧ elem kernel_2x2 [0; 1] = (36 / 25)%R
  ∧ gram 2 (sqrt_lame vectors_2x2 values_2x2) [] 0 1 ≠ elem kernel_2x2 [0; 1].
Proof.
  apply (C2_lame_root_gram_is_diagonal vectors_2x2 values_2x2 vectors_2x2).
  - apply RootFacts.is_svd_2x2.
  - reflexivity.
Defined.

(* ===================================================================== *)
(** * RandomMultiplicativeField *)
(* ===================================================================== *)

(** ** Rounding in [SpecFloat]

    [shr_fexp] shifts a mantissa to the exponent of the format and records
    whether bits were lost; [binary_round_aux] rounds to nearest even from
    that record.  A number that is at least 1 stays at least 1, and a number
    that is at most 1 stays at most 1, since 1 is a number of the format. *)

Module RoundingFacts.
Import SpecFloat Float.
Local Open Scope Z_scope.

Lemma digits2_pos_size p : digits2_pos p = Pos.size p.
Proof. induction p as [p IH|p IH|]; cbn; by rewrite ?IH. Qed.

(** [Zdigits2 m] is the number of binary digits of [m]. *)
Lemma Zdigits2_bounds m :
  0 < m → 2 ^ (Zdigits2 m - 1) <= m < 2 ^ Zdigits2 m.
Proof.
  destruct m as [|p|p]; try lia. intros _. cbn [Zdigits2].
  rewrite digits2_pos_size.
  assert (E : Z.pos (Pos.size p) = Z.log2 (Z.pos p) + 1).
  { destruct p as [p|p|]; cbn [Z.log2 Pos.size]; lia. }
  rewrite E. replace (Z.log2 (Z.pos p) + 1 - 1) with (Z.log2 (Z.pos p)) by lia.
  pose proof (Z.log2_spec (Z.pos p) ltac:(lia)) as H.
  replace (Z.log2 (Z.pos p) + 1) with (Z.succ (Z.log2 (Z.pos p))) by lia. exact H.
Qed.

Lemma Zdigits2_nonneg m : 0 <= Zdigits2 m.
Proof. destruct m; cbn; lia. Qed.

Lemma loc_exact_iff mrs : loc_of_shr_record mrs = loc_Exact ↔ inexact mrs = false.
Proof. destruct mrs as [m [] []]; cbn; split; congruence. Qed.

Lemma shr_1_m mrs :
  0 <= shr_m mrs → shr_m (shr_1 mrs) = shr_m mrs / 2.
Proof.
  destruct mrs as [m r s]. cbn [shr_m]. intros Hm.
  destruct m as [|[p|p|]|p]; cbn [shr_1 shr_m]; try lia; try done.
  - apply Z.div_unique with 1; lia.
  - apply Z.div_unique with 0; lia.
Qed.

Lemma shr_1_inexact mrs :
  0 <= shr_m mrs → inexact (shr_1 mrs) = true →
  inexact mrs = true ∨ shr_m (shr_1 mrs) * 2 < shr_m mrs.
Proof.
  destruct mrs as [m r s]. cbn [shr_m]. intros Hm.
  destruct m as [|[p|p|]|p]; unfold inexact; cbn [shr_1 shr_m shr_r shr_s];
    intros H; first [ right; lia | left; by rewrite orb_false_l in H ].
Qed.

Lemma iter_pos_shr n : ∀ mrs,
  0 <= shr_m mrs →
  shr_m (iter_pos shr_1 n mrs) = shr_m mrs / 2 ^ Z.pos n
  ∧ (inexact (iter_pos shr_1 n mrs) = true →
     inexact mrs = true ∨ shr_m (iter_pos shr_1 n mrs) * 2 ^ Z.pos n < shr_m mrs).
Proof.
  induction n as [n IH|n IH|]; intros mrs Hm; cbn [iter_pos].
  - pose proof (shr_1_m mrs Hm) as E1.
    assert (H1 : 0 <= shr_m (shr_1 mrs)) by (rewrite E1; apply Z.div_pos; lia).
    destruct (IH _ H1) as [E2 I2].
    assert (H2 : 0 <= shr_m (iter_pos shr_1 n (shr_1 mrs)))
      by (rewrite E2; apply Z.div_pos; lia).
    destruct (IH _ H2) as [E3 I3].
    assert (Hp : 0 < 2 ^ Z.pos n) by (apply Z.pow_pos_nonneg; lia).
    assert (Epow : 2 ^ Z.pos n~1 = 2 * 2 ^ Z.pos n * 2 ^ Z.pos n).
    { replace (Z.pos n~1) with (1 + Z.pos n + Z.pos n) by lia.
      rewrite !Z.pow_add_r by lia. by rewrite Z.pow_1_r. }
    split.
    + rewrite E3, E2, E1, !Z.div_div by lia. by rewrite Epow, Z.mul_assoc.
    + intros Hi. rewrite Epow.
      pose proof (Z.mul_div_le (shr_m mrs) 2 ltac:(lia)) as L1.
      pose proof (Z.mul_div_le (shr_m (shr_1 mrs)) (2 ^ Z.pos n) Hp) as L2.
      pose proof (Z.mul_div_le (shr_m (iter_pos shr_1 n (shr_1 mrs))) (2 ^ Z.pos n) Hp)
        as L3.
      rewrite <- E1 in L1. rewrite <- E2 in L2. rewrite <- E3 in L3.
      destruct (I3 Hi) as [Hi2|Hlt].
      * destruct (I2 Hi2) as [Hi1|Hlt].
        -- destruct (shr_1_inexact mrs Hm Hi1) as [?|Hlt]; [by left|right]. nia.
        -- right. nia.
      * right. nia.
  - destruct (IH _ Hm) as [E2 I2].
    assert (H2 : 0 <= shr_m (iter_pos shr_1 n mrs))
      by (rewrite E2; apply Z.div_pos; lia).
    destruct (IH _ H2) as [E3 I3].
    assert (Hp : 0 < 2 ^ Z.pos n) by (apply Z.pow_pos_nonneg; lia).
    assert (Epow : 2 ^ Z.pos n~0 = 2 ^ Z.pos n * 2 ^ Z.pos n).
    { replace (Z.pos n~0) with (Z.pos n + Z.pos n) by lia.
      rewrite Z.pow_add_r by lia. done. }
    split.
    + rewrite E3, E2, !Z.div_div by lia. by rewrite Epow.
    + intros Hi. rewrite Epow.
      pose proof (Z.mul_div_le (shr_m mrs) (2 ^ Z.pos n) Hp) as L2.
      pose proof (Z.mul_div_le (shr_m (iter_pos shr_1 n mrs)) (2 ^ Z.pos n) Hp) as L3.
      rewrite <- E2 in L2. rewrite <- E3 in L3.
      destruct (I3 Hi) as [Hi2|Hlt].
      * destruct (I2 Hi2) as [?|Hlt]; [by left|right]. nia.
      * right. nia.
  - split; [by apply shr_1_m|]. intros Hi.
    destruct (shr_1_inexact mrs Hm Hi) as [?|?]; [by left|right].
    by rewrite Z.pow_1_r.
Qed.

Lemma loc_of_record_of_loc m l : loc_of_shr_record (shr_record_of_loc m l) = l.
Proof. by destruct l as [|[]]. Qed.

Lemma shr_m_record_of_loc m l : shr_m (shr_record_of_loc m l) = m.
Proof. by destruct l as [|[]]. Qed.

Lemma round_nearest_even_bounds m l :
  m <= round_nearest_even m l <= m + 1
  ∧ (l = loc_Exact → round_nearest_even m l = m).
Proof.
  destruct l as [|[]]; cbn [round_nearest_even]; try (split; [lia|done]).
  destruct (Z.even m); split; try lia; done.
Qed.

Section Format.
Variables p em : Z.
Hypothesis Hp : 1 < p.
Hypothesis Hem : p <= em.

Lemma emin_nonpos : SpecFloat.emin p em <= 0.
Proof. unfold SpecFloat.emin. lia. Qed.

(** What [shr_fexp] does to a mantissa that is not negative. *)
Lemma shr_fexp_spec m e l :
  0 <= m →
  let n := fexp p em (Zdigits2 m + e) - e in
  let r := shr_fexp p em m e l in
  (n <= 0 ∧ shr_m r.1 = m ∧ r.2 = e ∧ loc_of_shr_record r.1 = l)
  ∨ (0 < n ∧ shr_m r.1 = m / 2 ^ n ∧ r.2 = e + n
     ∧ (loc_of_shr_record r.1 ≠ loc_Exact →
        l ≠ loc_Exact ∨ m / 2 ^ n * 2 ^ n < m)).
Proof.
  intros Hm. cbn zeta. unfold shr_fexp, shr.
  destruct (fexp p em (Zdigits2 m + e) - e) as [|n|n] eqn:En.
  - left. cbn [fst snd]. by rewrite shr_m_record_of_loc, loc_of_record_of_loc.
  - right. cbn [fst snd].
    destruct (iter_pos_shr n (shr_record_of_loc m l)) as [E I].
    { by rewrite shr_m_record_of_loc. }
    rewrite shr_m_record_of_loc in E, I.
    split; [lia|]. split; [done|]. split; [done|].
    intros Hl. rewrite E in I.
    destruct (inexact (iter_pos shr_1 n (shr_record_of_loc m l))) eqn:Ei.
    + destruct (I eq_refl) as [Hi|?]; [left|by right].
      intros ->. by cbn in Hi.
    + by apply loc_exact_iff in Ei.
  - left. cbn [fst snd]. rewrite shr_m_record_of_loc, loc_of_record_of_loc.
    split; [lia|done].
Qed.

Lemma shr_fexp_ge1 m e l :
  ge1 m e → ge1 (shr_m (shr_fexp p em m e l).1) (shr_fexp p em m e l).2.
Proof.
  intros [Hm Hge].
  destruct (shr_fexp_spec m e l ltac:(lia)) as [(_ & -> & -> & _)|(Hn & -> & -> & _)];
    [done|].
  set (n := fexp p em (Zdigits2 m + e) - e) in *.
  pose proof emin_nonpos as Hemin.
  assert (Hpn : 0 < 2 ^ n) by (apply Z.pow_pos_nonneg; lia).
  destruct (Z.le_gt_cases (e + n) 0) as [Hle|Hgt].
  - (* the new exponent is not positive: the bound is a multiple of 2 ^ n *)
    assert (E : 2 ^ (- e) = 2 ^ (- (e + n)) * 2 ^ n).
    { rewrite <- Z.pow_add_r by lia. f_equal. lia. }
    assert (H1 : 2 ^ (- (e + n)) <= m / 2 ^ n).
    { apply Z.div_le_lower_bound; [done|]. rewrite Z.mul_comm, <- E. done. }
    split; [|done].
    assert (0 < 2 ^ (- (e + n))) by (apply Z.pow_pos_nonneg; lia). lia.
  - (* the new exponent is positive: the leading digit is kept *)
    unfold ge1. rewrite (Z.pow_neg_r 2 (- (e + n))) by lia.
    assert (En : n = Zdigits2 m - p).
    { unfold n, fexp in *. lia. }
    pose proof (Zdigits2_bounds m Hm) as [Hd _].
    assert (H1 : 2 ^ (p - 1) <= m / 2 ^ n).
    { apply Z.div_le_lower_bound; [done|]. rewrite Z.mul_comm.
      rewrite <- Z.pow_add_r by lia.
      replace (p - 1 + n) with (Zdigits2 m - 1) by lia. done. }
    assert (0 < 2 ^ (p - 1)) by (apply Z.pow_pos_nonneg; lia). lia.
Qed.

Lemma le1_digits m e : le1 m e → Zdigits2 m + e <= 1.
Proof.
  intros (Hm & He & Hle). destruct (Z.eq_dec m 0) as [->|Hne]; [cbn; lia|].
  pose proof (Zdigits2_bounds m ltac:(lia)) as [Hd _].
  pose proof (Zdigits2_nonneg m).
  destruct (Z.le_gt_cases (Zdigits2 m - 1) (- e)) as [?|Hgt]; [lia|].
  assert (2 ^ (- e) < 2 ^ (Zdigits2 m - 1)); [|lia].
  apply Z.pow_lt_mono_r; lia.
Qed.

Lemma shr_fexp_le1 m e l :
  le1 m e → (l ≠ loc_Exact → m < 2 ^ (- e)) →
  le1 (shr_m (shr_fexp p em m e l).1) (shr_fexp p em m e l).2
  ∧ (loc_of_shr_record (shr_fexp p em m e l).1 ≠ loc_Exact →
     shr_m (shr_fexp p em m e l).1 < 2 ^ (- (shr_fexp p em m e l).2)).
Proof.
  intros Hle1 Hstrict. pose proof (le1_digits m e Hle1) as Hdig.
  destruct Hle1 as (Hm & He & Hle).
  destruct (shr_fexp_spec m e l Hm) as [(_ & -> & -> & ->)|(Hn & -> & -> & Hl)];
    [done|].
  set (n := fexp p em (Zdigits2 m + e) - e) in *.
  pose proof emin_nonpos as Hemin.
  assert (Hen : e + n <= 0) by (unfold n, fexp; lia).
  assert (Hpn : 0 < 2 ^ n) by (apply Z.pow_pos_nonneg; lia).
  assert (E : 2 ^ (- e) = 2 ^ (- (e + n)) * 2 ^ n).
  { rewrite <- Z.pow_add_r by lia. f_equal. lia. }
  pose proof (Z.mul_div_le m (2 ^ n) Hpn) as Hfloor.
  assert (Hq : 0 <= m / 2 ^ n) by (apply Z.div_pos; lia).
  split.
  - split; [done|]. split; [done|]. nia.
  - intros Hi. destruct (Hl Hi) as [Hne|Hlt].
    + specialize (Hstrict Hne). nia.
    + nia.
Qed.

Lemma binary_round_aux_cases m e l :
  0 <= m →
  binary_round_aux p em false m e l = S754_zero false
  ∨ binary_round_aux p em false m e l = S754_infinity false
  ∨ ∃ m' e', binary_round_aux p em false m e l = S754_finite false m' e'.
Proof.
  intros Hm. unfold binary_round_aux.
  assert (H1 : 0 <= shr_m (shr_fexp p em m e l).1).
  { destruct (shr_fexp_spec m e l Hm) as [(_ & -> & _)|(Hn & -> & _)]; [done|].
    apply Z.div_pos; [done|]. apply Z.pow_pos_nonneg; lia. }
  destruct (shr_fexp p em m e l) as [mrs' e']. cbn [fst] in H1.
  set (m2 := round_nearest_even (shr_m mrs') (loc_of_shr_record mrs')).
  assert (H2 : 0 <= m2).
  { pose proof (round_nearest_even_bounds (shr_m mrs') (loc_of_shr_record mrs')).
    unfold m2. lia. }
  assert (H3 : 0 <= shr_m (shr_fexp p em m2 e' loc_Exact).1).
  { destruct (shr_fexp_spec m2 e' loc_Exact H2) as [(_ & -> & _)|(Hn & -> & _)];
      [done|].
    apply Z.div_pos; [done|]. apply Z.pow_pos_nonneg; lia. }
  destruct (shr_fexp p em m2 e' loc_Exact) as [mrs'' e'']. cbn [fst] in H3.
  destruct (shr_m mrs'') as [|m3|m3]; [by left| |lia].
  destruct (e'' <=? em - p); [right; right; eauto|by right; left].
Qed.

Lemma binary_round_aux_ge1 m e l :
  ge1 m e →
  binary_round_aux p em false m e l = S754_infinity false
  ∨ ∃ m' e', binary_round_aux p em false m e l = S754_finite false m' e'
             ∧ ge1 (Z.pos m') e'.
Proof.
  intros H. unfold binary_round_aux.
  pose proof (shr_fexp_ge1 m e l H) as H1.
  destruct (shr_fexp p em m e l) as [mrs' e']. cbn [fst snd] in H1.
  set (m2 := round_nearest_even (shr_m mrs') (loc_of_shr_record mrs')).
  assert (H2 : ge1 m2 e').
  { pose proof (round_nearest_even_bounds (shr_m mrs') (loc_of_shr_record mrs')).
    unfold m2, ge1 in *. lia. }
  pose proof (shr_fexp_ge1 m2 e' loc_Exact H2) as H3.
  destruct (shr_fexp p em m2 e' loc_Exact) as [mrs'' e'']. cbn [fst snd] in H3.
  destruct (shr_m mrs'') as [|m3|m3]; [destruct H3; lia| |destruct H3; lia].
  destruct (e'' <=? em - p); [right; eauto|by left].
Qed.

Lemma binary_round_aux_le1 m e l :
  le1 m e → (l ≠ loc_Exact → m < 2 ^ (- e)) →
  binary_round_aux p em false m e l = S754_zero false
  ∨ ∃ m' e', binary_round_aux p em false m e l = S754_finite false m' e'
             ∧ le1 (Z.pos m') e'.
Proof.
  intros H Hs. unfold binary_round_aux.
  pose proof (shr_fexp_le1 m e l H Hs) as [H1 Hs1].
  destruct (shr_fexp p em m e l) as [mrs' e']. cbn [fst snd] in H1, Hs1.
  set (m2 := round_nearest_even (shr_m mrs') (loc_of_shr_record mrs')).
  assert (H2 : le1 m2 e').
  { pose proof (round_nearest_even_bounds (shr_m mrs') (loc_of_shr_record mrs'))
      as [Hb He].
    destruct (loc_of_shr_record mrs') as [|c] eqn:El.
    - unfold m2. by rewrite He.
    - specialize (Hs1 ltac:(done)). unfold m2, le1 in *. lia. }
  pose proof (shr_fexp_le1 m2 e' loc_Exact H2 ltac:(done)) as [H3 _].
  destruct (shr_fexp p em m2 e' loc_Exact) as [mrs'' e'']. cbn [fst snd] in H3.
  destruct (shr_m mrs'') as [|m3|m3]; [by left| |destruct H3; lia].
  assert ((e'' <=? em - p) = true) as -> by (destruct H3 as (_ & ? & _); lia).
  right. eauto.
Qed.

Lemma iter_xO m d : Z.pos (Pos.iter xO m d) = Z.pos m * 2 ^ Z.pos d.
Proof.
  induction d as [|d IH] using Pos.peano_ind.
  - cbn [Pos.iter]. rewrite Z.pow_1_r. lia.
  - rewrite Pos.iter_succ, Pos2Z.inj_xO, IH, Pos2Z.inj_succ, Z.pow_succ_r by lia.
    lia.
Qed.

Lemma shl_align_spec mx ex ex' :
  (shl_align mx ex ex').2 <= ex
  ∧ (ex' <= ex → (shl_align mx ex ex').2 = ex')
  ∧ Z.pos (shl_align mx ex ex').1 = Z.pos mx * 2 ^ (ex - (shl_align mx ex ex').2).
Proof.
  unfold shl_align. destruct (ex' - ex) as [|d|d] eqn:E; cbn [fst snd].
  - rewrite Z.sub_diag, Z.pow_0_r. lia.
  - rewrite Z.sub_diag, Z.pow_0_r. lia.
  - rewrite iter_xO. replace (ex - ex') with (Z.pos d) by lia. lia.
Qed.

Lemma shl_align_ge1 mx ex ex' :
  ge1 (Z.pos mx) ex → ge1 (Z.pos (shl_align mx ex ex').1) (shl_align mx ex ex').2.
Proof.
  intros [_ H]. destruct (shl_align_spec mx ex ex') as (Hle & _ & ->).
  set (e2 := (shl_align mx ex ex').2) in *.
  assert (Hpow : 0 < 2 ^ (ex - e2)) by (apply Z.pow_pos_nonneg; lia).
  split; [lia|].
  destruct (Z.le_gt_cases ex 0) as [Hex|Hex].
  - replace (- e2) with (- ex + (ex - e2)) by lia.
    rewrite Z.pow_add_r by lia. nia.
  - destruct (Z.le_gt_cases e2 0) as [He2|He2].
    + assert (2 ^ (- e2) <= 2 ^ (ex - e2)) by (apply Z.pow_le_mono_r; lia). nia.
    + rewrite Z.pow_neg_r by lia. lia.
Qed.

Lemma binary_round_ge1 m e :
  ge1 (Z.pos m) e →
  binary_round p em false m e = S754_infinity false
  ∨ ∃ m' e', binary_round p em false m e = S754_finite false m' e'
             ∧ ge1 (Z.pos m') e'.
Proof.
  intros H. unfold binary_round.
  pose proof (shl_align_ge1 m e (fexp p em (Z.pos (digits2_pos m) + e)) H) as H1.
  destruct (shl_align m e _) as [mz ez]. by apply binary_round_aux_ge1.
Qed.

(** Adding 1 to a positive number gives at least 1. *)
Lemma add_one_ge1 m ex m1 e1 :
  e1 <= 0 → Z.pos m1 = 2 ^ (- e1) →
  SFadd p em (S754_finite false m ex) (S754_finite false m1 e1) = S754_infinity false
  ∨ ∃ m' e', SFadd p em (S754_finite false m ex) (S754_finite false m1 e1)
             = S754_finite false m' e' ∧ ge1 (Z.pos m') e'.
Proof.
  intros He1 Hm1. cbn [SFadd cond_Zopp].
  destruct (shl_align_spec m ex (Z.min ex e1)) as (_ & E2 & E1).
  destruct (shl_align_spec m1 e1 (Z.min ex e1)) as (_ & F2 & F1).
  rewrite E2 in E1 by lia. rewrite F2 in F1 by lia.
  cbn [Z.add binary_normalize]. apply binary_round_ge1.
  rewrite Pos2Z.inj_add, E1, F1, Hm1.
  assert (0 < Z.pos m * 2 ^ (ex - Z.min ex e1)).
  { apply Z.mul_pos_pos; [lia|]. apply Z.pow_pos_nonneg; lia. }
  rewrite <- Z.pow_add_r by lia.
  replace (- e1 + (e1 - Z.min ex e1)) with (- Z.min ex e1) by lia.
  split; lia.
Qed.

Lemma new_location_exact nb k :
  new_location nb k ≠ loc_Exact → k ≠ 0.
Proof.
  intros H ->. apply H. unfold new_location, new_location_even, new_location_odd.
  by destruct (Z.even nb).
Qed.

(** The reciprocal of a number that is at least 1 is at most 1. *)
Lemma div_one_le1 m1 e1 my ey :
  e1 <= 0 → Z.pos m1 = 2 ^ (- e1) → ge1 (Z.pos my) ey →
  SFdiv p em (S754_finite false m1 e1) (S754_finite false my ey) = S754_zero false
  ∨ ∃ m' e', SFdiv p em (S754_finite false m1 e1) (S754_finite false my ey)
             = S754_finite false m' e' ∧ le1 (Z.pos m') e'.
Proof.
  intros He1 Hm1 [_ Hy]. cbn [SFdiv xorb]. unfold SFdiv_core_binary.
  set (d1 := Zdigits2 (Z.pos m1)). set (d2 := Zdigits2 (Z.pos my)).
  set (e' := Z.min (fexp p em (d1 + e1 - (d2 + ey))) (e1 - ey)).
  set (s := e1 - ey - e').
  pose proof emin_nonpos as Hemin.
  assert (Hd1 : d1 + e1 = 1).
  { pose proof (Zdigits2_bounds (Z.pos m1) ltac:(lia)) as [L U]. fold d1 in L, U.
    pose proof (Zdigits2_nonneg (Z.pos m1)). fold d1 in H.
    rewrite Hm1 in L, U.
    apply Z.pow_le_mono_r_iff in L; [|lia|lia].
    apply Z.pow_lt_mono_r_iff in U; [|lia|lia]. lia. }
  assert (Hd2 : 1 <= d2 + ey).
  { pose proof (Zdigits2_bounds (Z.pos my) ltac:(lia)) as [L U]. fold d2 in L, U.
    pose proof (Zdigits2_nonneg (Z.pos my)). fold d2 in H.
    destruct (Z.le_gt_cases 0 ey) as [?|?].
    - assert (d2 ≠ 0) by (intros E0; rewrite E0, Z.pow_0_r in U; lia). lia.
    - assert (2 ^ (- ey) < 2 ^ d2) by lia.
      apply Z.pow_lt_mono_r_iff in H1; lia. }
  assert (He' : e' <= 0) by (unfold e', fexp; lia).
  assert (Hs : 0 <= s) by (unfold s, e'; lia).
  set (m' := match s with Z.pos _ => Z.shiftl (Z.pos m1) s | 0 => Z.pos m1 | _ => 0 end).
  assert (Em' : m' = 2 ^ (- ey - e')).
  { replace (- ey - e') with (- e1 + s) by (unfold s; lia).
    rewrite Z.pow_add_r, <- Hm1 by lia. unfold m'.
    destruct s as [|s'|s'] eqn:Es; [rewrite Z.pow_0_r; lia| |lia].
    by rewrite Z.shiftl_mul_pow2. }
  pose proof (Z_div_mod m' (Z.pos my) ltac:(lia)) as Hdiv.
  destruct (Z.div_eucl m' (Z.pos my)) as [q r]. destruct Hdiv as [Hq Hr].
  assert (Hp' : 0 < 2 ^ (- e')) by (apply Z.pow_pos_nonneg; lia).
  assert (Hq0 : 0 <= q) by nia.
  apply binary_round_aux_le1.
  - split; [done|]. split; [done|].
    destruct (Z.le_gt_cases ey 0) as [Hey|Hey].
    + assert (E : m' = 2 ^ (- ey) * 2 ^ (- e')).
      { rewrite Em', <- Z.pow_add_r by lia. f_equal; lia. }
      assert (0 < 2 ^ (- ey)) by (apply Z.pow_pos_nonneg; lia). nia.
    + assert (m' <= 2 ^ (- e')).
      { rewrite Em'. destruct (Z.le_gt_cases 0 (- ey - e')).
        - apply Z.pow_le_mono_r; lia.
        - rewrite Z.pow_neg_r by lia. lia. }
      nia.
  - intros Hl. apply new_location_exact in Hl.
    destruct (Z.le_gt_cases ey 0) as [Hey|Hey].
    + assert (E : m' = 2 ^ (- ey) * 2 ^ (- e')).
      { rewrite Em', <- Z.pow_add_r by lia. f_equal; lia. }
      assert (0 < 2 ^ (- ey)) by (apply Z.pow_pos_nonneg; lia). nia.
    + assert (m' <= 2 ^ (- e')).
      { rewrite Em'. destruct (Z.le_gt_cases 0 (- ey - e')).
        - apply Z.pow_le_mono_r; lia.
        - rewrite Z.pow_neg_r by lia. lia. }
      nia.
Qed.

End Format.

End RoundingFacts.

(** ** The entry-wise functions *)

Module FloatFacts.
Import SpecFloat Float RoundingFacts.

Lemma binary_round_aux_sign p em m e l :
  signbit (binary_round_aux p em false m e l) = false.
Proof.
  unfold binary_round_aux.
  destruct (shr_fexp p em m e l) as [mrs' e'].
  destruct (shr_fexp p em _ e' loc_Exact) as [mrs'' e''].
  destruct (shr_m mrs''); [done| |done]. by destruct (_ <=? _)%Z.
Qed.

Lemma binary_normalize_sign p em m e :
  (0 <= m)%Z → signbit (binary_normalize p em m e false) = false.
Proof.
  destruct m as [|m|m]; [done| |lia]. intros _. cbn [binary_normalize].
  unfold binary_round. destruct (shl_align _ _ _) as [mz ez].
  apply binary_round_aux_sign.
Qed.

Lemma cdiv_nonneg a b : (0 <= a)%Z → (0 < b)%Z → (0 <= cdiv a b)%Z.
Proof.
  intros Ha Hb. unfold cdiv.
  assert (- a / b <= 0)%Z; [|lia].
  apply Z.div_le_upper_bound; lia.
Qed.

Lemma taylor_nonneg u A n i tl tu sl su :
  (0 < u)%Z → (0 <= A)%Z → (0 <= i)%Z →
  (0 <= tl)%Z → (0 <= tu)%Z → (0 <= sl)%Z → (0 <= su)%Z →
  (0 <= fst (taylor u A n i tl tu sl su))%Z
  ∧ (0 <= snd (taylor u A n i tl tu sl su))%Z.
Proof.
  intros Hu HA. revert i tl tu sl su.
  induction n as [|n IH]; intros i tl tu sl su Hi Htl Htu Hsl Hsu;
    cbn [taylor fst snd]; [lia|].
  apply IH; try lia.
  - apply Z.div_pos; nia.
  - apply cdiv_nonneg; nia.
Qed.

Lemma square_nonneg u b :
  (0 < u)%Z → (0 <= fst b)%Z ∧ (0 <= snd b)%Z →
  (0 <= fst (square u b))%Z ∧ (0 <= snd (square u b))%Z.
Proof.
  intros Hu [Hl Hh]. unfold square. cbn [fst snd]. split.
  - apply Z.div_pos; nia.
  - apply cdiv_nonneg; nia.
Qed.

Lemma iter_square_nonneg u j b :
  (0 < u)%Z → (0 <= fst b)%Z ∧ (0 <= snd b)%Z →
  (0 <= fst (Z.iter j (square u) b))%Z ∧ (0 <= snd (Z.iter j (square u) b))%Z.
Proof.
  intros Hu Hb. destruct j as [|j|j]; cbn [Z.iter]; try done.
  rewrite Pos2Nat.inj_iter.
  induction (Pos.to_nat j) as [|k IH]; cbn [Nat.iter]; [done|].
  by apply square_nonneg.
Qed.

Lemma enclosure_nonneg dt s m e : (0 <= fst (enclosure dt s m e))%Z.
Proof.
  unfold enclosure.
  assert (Hu : (0 < 2 ^ frac_bits dt)%Z) by (by destruct dt).
  set (u := (2 ^ frac_bits dt)%Z) in *.
  set (A := (Z.pos m * 2 ^ (e - halvings dt + frac_bits dt))%Z).
  assert (HA : (0 <= A)%Z).
  { unfold A. apply Z.mul_nonneg_nonneg; [lia|]. apply Z.pow_nonneg. lia. }
  pose proof (iter_square_nonneg u (halvings dt) _ Hu
                (taylor_nonneg u A (Z.to_nat (frac_bits dt / 4)) 0 u u 0 0
                   Hu HA ltac:(lia) ltac:(lia) ltac:(lia) ltac:(lia) ltac:(lia)))
    as [Hl Hh].
  destruct s; [|exact Hl]. cbn [fst].
  destruct (Z.eq_dec (snd (Z.iter (halvings dt) (square u)
              (taylor u A (Z.to_nat (frac_bits dt / 4)) 0 u u 0 0))) 0%Z) as [E|E].
  - rewrite E, Z.div_0_r. lia.
  - apply Z.div_pos; nia.
Qed.

Lemma exp_signbit dt x : signbit (exp_ dt x) = false.
Proof.
  destruct x as [s|s| |s m e]; cbn [exp_].
  - by destruct dt.
  - by destruct s.
  - done.
  - destruct (Qle_bool _ _); [done|]. destruct (Qle_bool _ _); [done|].
    apply binary_normalize_sign, enclosure_nonneg.
Qed.

Lemma of_Z_1 dt : of_Z dt 1 = S754_finite false (Pos.shiftl 1 (Z.to_N (prec dt - 1))) (1 - prec dt).
Proof. by destruct dt. Qed.

Lemma one_finite dt : one dt = S754_finite false (Pos.shiftl 1 (Z.to_N (prec dt - 1))) (1 - prec dt).
Proof. by destruct dt. Qed.

Lemma add_one_signbit dt x :
  signbit x = false → signbit (add_ dt x (of_Z dt 1)) = false.
Proof.
  rewrite of_Z_1. unfold add_.
  destruct x as [[]|[]| |[] m e]; try done. intros _.
  cbn [SFadd cond_Zopp]. by apply binary_normalize_sign.
Qed.

Lemma reciprocal_signbit dt x :
  signbit x = false → signbit (reciprocal_ dt x) = false.
Proof.
  unfold reciprocal_. rewrite one_finite.
  destruct x as [[]|[]| |[] m e]; try done. intros _.
  cbn [SFdiv xorb]. destruct (SFdiv_core_binary _ _ _ _ _ _) as [[mz ez] lz].
  apply binary_round_aux_sign.
Qed.

Lemma to_Q_neg x : (to_Q (neg_ x) == - to_Q x)%Q.
Proof.
  destruct x as [s|s| |s m e]; cbn [neg_ SFopp to_Q]; try done.
  destruct s; cbn [negb].
  - change (inject_Z (Z.pos m)) with (- inject_Z (Z.neg m))%Q. ring.
  - change (inject_Z (Z.neg m)) with (- inject_Z (Z.pos m))%Q. ring.
Qed.

Lemma bounds_apart dt : (underflow_bound dt < overflow_bound dt)%Q.
Proof. by destruct dt. Qed.

Lemma exp_underflow dt s m e :
  (to_Q (S754_finite s m e) <= underflow_bound dt)%Q →
  exp_ dt (S754_finite s m e) = zero.
Proof.
  intros H. apply Qle_bool_iff in H. cbn [exp_]. by rewrite H.
Qed.

Lemma exp_overflow dt s m e :
  (overflow_bound dt <= to_Q (S754_finite s m e))%Q →
  exp_ dt (S754_finite s m e) = inf.
Proof.
  intros H. cbn [exp_].
  destruct (Qle_bool (to_Q _) (underflow_bound dt)) eqn:E.
  - apply Qle_bool_iff in E. exfalso.
    apply (Qlt_irrefl (underflow_bound dt)).
    eapply Qlt_le_trans; [apply bounds_apart|]. by eapply Qle_trans.
  - apply Qle_bool_iff in H. by rewrite H.
Qed.

Lemma format_ok dt : (1 < prec dt)%Z ∧ (prec dt <= emax dt)%Z.
Proof. by destruct dt. Qed.

Lemma one_value dt :
  ∃ m1 e1, one dt = S754_finite false m1 e1 ∧ of_Z dt 1 = S754_finite false m1 e1
           ∧ (e1 <= 0)%Z ∧ Z.pos m1 = (2 ^ (- e1))%Z.
Proof. destruct dt; eexists _, _; repeat split; done. Qed.

Lemma to_Q_le1 m e :
  le1 (Z.pos m) e → (0 <= to_Q (S754_finite false m e) <= 1)%Q.
Proof.
  intros (_ & He & Hle). cbn [to_Q].
  assert (E : (Qpower 2 e == / inject_Z (2 ^ (- e)))%Q).
  { rewrite Zpower_Qpower by lia. rewrite <- Qpower_opp.
    replace (- - e)%Z with e by lia. reflexivity. }
  assert (Hpos : (0 < inject_Z (2 ^ (- e)))%Q).
  { change 0%Q with (inject_Z 0). rewrite <- Zlt_Qlt.
    apply Z.pow_pos_nonneg; lia. }
  rewrite E. split.
  - apply Qmult_le_0_compat.
    + change 0%Q with (inject_Z 0). rewrite <- Zle_Qle. lia.
    + apply Qlt_le_weak, Qinv_lt_0_compat, Hpos.
  - apply Qle_shift_div_r; [exact Hpos|]. rewrite Qmult_1_l.
    by rewrite <- Zle_Qle.
Qed.

Lemma nearest_cases dt m :
  (0 <= m)%Z →
  nearest dt m = zero ∨ nearest dt m = inf
  ∨ ∃ m' e', nearest dt m = S754_finite false m' e'.
Proof.
  intros Hm. unfold nearest. destruct m as [|m|m]; [by left| |lia].
  cbn [binary_normalize]. unfold binary_round.
  destruct (shl_align _ _ _) as [mz ez].
  destruct (format_ok dt) as [H1 H2].
  by apply binary_round_aux_cases.
Qed.

Lemma exp_cases dt x :
  x ≠ nan →
  exp_ dt x = zero ∨ exp_ dt x = inf ∨ ∃ m e, exp_ dt x = S754_finite false m e.
Proof.
  destruct x as [s|s| |s m e]; cbn [exp_]; intros Hx.
  - right; right. destruct (one_value dt) as (m1 & e1 & -> & _). eauto.
  - destruct s; [by left|by right; left].
  - done.
  - destruct (Qle_bool _ _); [by left|].
    destruct (Qle_bool _ _); [by right; left|].
    apply nearest_cases, enclosure_nonneg.
Qed.

(** What [1 / (exp(-x) + 1)] evaluates to when [x] is not [nan]: [+0], or a
    positive number that is at most 1. *)
Lemma sigmoid_cases dt x :
  x ≠ nan →
  reciprocal_ dt (add_ dt (exp_ dt (neg_ x)) (of_Z dt 1)) = zero
  ∨ ∃ m e, reciprocal_ dt (add_ dt (exp_ dt (neg_ x)) (of_Z dt 1))
           = S754_finite false m e ∧ le1 (Z.pos m) e.
Proof.
  intros Hx.
  assert (Hn : neg_ x ≠ nan) by (by destruct x).
  destruct (one_value dt) as (m1 & e1 & E1 & Eo & He1 & Hm1).
  destruct (format_ok dt) as [Hp Hem].
  unfold reciprocal_, add_. rewrite E1, Eo.
  destruct (exp_cases dt (neg_ x) Hn) as [->|[->|(m & e & ->)]].
  - cbn [SFadd zero].
    apply (div_one_le1 _ _ Hp Hem); [done|done|]. split; lia.
  - by left.
  - destruct (add_one_ge1 (prec dt) (emax dt) Hp Hem m e m1 e1 He1 Hm1)
      as [->|(m' & e' & -> & Hge)].
    + by left.
    + by apply (div_one_le1 _ _ Hp Hem).
Qed.

End FloatFacts.

(** ** The bounds of [exp_] and the real exponential *)

Module GuardFacts.
Import SpecFloat Float.
Local Open Scope R_scope.

Lemma exp_double a : exp (a + a) = exp a * exp a.
Proof. apply exp_plus. Qed.

(** [7/10] is more than [ln 2]. *)
Lemma exp_7_10 : 2 < exp (7 / 10).
Proof.
  assert (H0 : 1 + 7 / 640 < exp (7 / 640)) by (apply exp_ineq1; lra).
  assert (H1 : 1.02199 < exp (7 / 320)).
  { replace (7 / 320) with (7 / 640 + 7 / 640) by lra. rewrite exp_double. nra. }
  assert (H2 : 1.04446 < exp (7 / 160)).
  { replace (7 / 160) with (7 / 320 + 7 / 320) by lra. rewrite exp_double. nra. }
  assert (H3 : 1.09089 < exp (7 / 80)).
  { replace (7 / 80) with (7 / 160 + 7 / 160) by lra. rewrite exp_double. nra. }
  assert (H4 : 1.19004 < exp (7 / 40)).
  { replace (7 / 40) with (7 / 80 + 7 / 80) by lra. rewrite exp_double. nra. }
  assert (H5 : 1.41619 < exp (7 / 20)).
  { replace (7 / 20) with (7 / 40 + 7 / 40) by lra. rewrite exp_double. nra. }
  replace (7 / 10) with (7 / 20 + 7 / 20) by lra. rewrite exp_double. nra.
Qed.

Lemma exp_INR n a : exp (INR n * a) = exp a ^ n.
Proof.
  induction n as [|n IH].
  - cbn. rewrite Rmult_0_l. apply exp_0.
  - rewrite S_INR, Rmult_plus_distr_r, Rmult_1_l, exp_plus, IH. cbn. ring.
Qed.

Lemma pow_two_le n : 2 ^ n <= exp (7 / 10) ^ n.
Proof. apply pow_incr. pose proof exp_7_10. lra. Qed.

Lemma Q2R_inject_Z z : Q2R (inject_Z z) = IZR z.
Proof. unfold Q2R, inject_Z. cbn. lra. Qed.

Lemma Q2R_7_10 : Q2R (7 # 10) = 7 / 10.
Proof. unfold Q2R. cbn. lra. Qed.

(** Where [exp_] answers [+0] without computing, [e ^ x] is at most half the
    least subnormal number [2 ^ emin], which rounds to zero ... *)
Lemma exp_underflow_sound dt (x : float) :
  (to_Q x <= underflow_bound dt)%Q →
  exp (Q2R (to_Q x)) <= powerRZ 2 (emin dt - 1).
Proof.
  intros H. apply Qreals.Qle_Rle in H.
  unfold underflow_bound in H. rewrite Qreals.Q2R_mult, Q2R_inject_Z, Q2R_7_10 in H.
  set (n := Z.to_nat (- (emin dt - 1))).
  assert (Hk : (emin dt - 1 = - Z.of_nat n)%Z).
  { unfold n. rewrite Z2Nat.id; [lia|by destruct dt]. }
  rewrite Hk in *. rewrite powerRZ_neg', <- pow_powerRZ.
  rewrite opp_IZR, <- INR_IZR_INZ in H.
  assert (E : exp (- INR n * (7 / 10)) = / exp (7 / 10) ^ n).
  { rewrite <- exp_INR, <- exp_Ropp. f_equal. lra. }
  assert (Hmono : exp (Q2R (to_Q x)) <= exp (- INR n * (7 / 10))).
  { destruct H as [H|H]; [left; by apply exp_increasing|right; by rewrite H]. }
  rewrite E in Hmono. etransitivity; [exact Hmono|].
  apply Rinv_le_contravar; [apply pow_lt; lra|apply pow_two_le].
Qed.

(** ... and where it answers [+inf] without computing, [e ^ x] is at least
    [2 ^ emax], above every finite number of the format. *)
Lemma exp_overflow_sound dt (x : float) :
  (overflow_bound dt <= to_Q x)%Q →
  powerRZ 2 (emax dt) <= exp (Q2R (to_Q x)).
Proof.
  intros H. apply Qreals.Qle_Rle in H.
  unfold overflow_bound in H. rewrite Qreals.Q2R_mult, Q2R_inject_Z, Q2R_7_10 in H.
  set (n := Z.to_nat (emax dt)).
  assert (Hk : (emax dt = Z.of_nat n)%Z).
  { unfold n. rewrite Z2Nat.id; [lia|by destruct dt]. }
  rewrite Hk in *. rewrite <- pow_powerRZ. rewrite <- INR_IZR_INZ in H.
  assert (Hmono : exp (INR n * (7 / 10)) <= exp (Q2R (to_Q x))).
  { destruct H as [H|H]; [left; by apply exp_increasing|right; by rewrite H]. }
  rewrite exp_INR in Hmono. etransitivity; [apply pow_two_le|exact Hmono].
Qed.

End GuardFacts.

Section MultiplicativeValues.
Import SpecFloat Float RoundingFacts FloatFacts.

(** [exp_] on a few numbers of [float32], against the values of the
    exponential in that format: e = 0x402DF854, 1/e = 0x3EBC5AB2,
    e^10 = 0x46AC14EE, e^88 = 0x7EF882B7, and the subnormal
    e^-100 = 0x0000001B. *)
Lemma exp_reference_values :
  exp_ float32 (of_Z float32 1) = S754_finite false 11401300 (-22)
  ∧ exp_ float32 (of_Z float32 (-1)) = S754_finite false 12343986 (-25)
  ∧ exp_ float32 (of_Z float32 10) = S754_finite false 11277550 (-9)
  ∧ exp_ float32 (of_Z float32 88) = S754_finite false 16286391 103
  ∧ exp_ float32 (of_Z float32 (-100)) = S754_finite false 27 (-149).
Proof. vm_compute. by repeat split. Qed.



End MultiplicativeValues.

(* ===================================================================== *)
(** * VoxelMorph: validation and exponentiation *)
(* ===================================================================== *)

Module VoxelMorphFacts.
Import VoxelMorph.

Lemma check_shape_cases x y dims ok :
  check_shape x y dims ok = Ok tt
  ∨ ∃ msg, check_shape x y dims ok = Raise (ValueError msg).
Proof.
  unfold check_shape. destruct x, y; eauto.
  destruct (forallb _ _); eauto.
Qed.

(** The checks either pass or raise [ValueError]. *)
Lemma sanity_checks_cases self source target source_seg target_seg :
  sanity_checks self source target source_seg target_seg = Ok tt
  ∨ ∃ msg, sanity_checks self source target source_seg target_seg
           = Raise (ValueError msg).
Proof.
  unfold sanity_checks, check_dim.
  destruct (forallb _ [source; target]); [|cbn; eauto]. cbn [bind].
  destruct (check_shape_cases (Some target) (Some source) [0] true) as [->|[m ->]];
    [|cbn; eauto]. cbn [bind].
  destruct (check_shape_cases (Some target) (Some source) (seq 2 (dim self)) false)
    as [->|[m ->]]; [|cbn; eauto]. cbn [bind].
  destruct (check_shape_cases target_seg source_seg [0] true) as [->|[m ->]];
    [|cbn; eauto]. cbn [bind].
  apply check_shape_cases.
Qed.

Lemma check_shape_ok x y dims ok :
  check_shape (Some x) (Some y) dims ok = Ok tt →
  ∀ d, In d dims → agree ok x y d = true.
Proof.
  unfold check_shape. destruct (forallb _ _) eqn:E; [|done].
  intros _. by apply forallb_forall.
Qed.

Lemma agree_no_batch_clash x y : agree true x y 0 = true → ¬ batch_clash y x.
Proof.
  unfold agree. intros H (a & b & Ha & Hb & Hne & Ha1 & Hb1).
  rewrite Ha, Hb in H. cbn in H.
  apply orb_true_iff in H as [H|H].
  - apply Nat.eqb_eq in H. congruence.
  - apply orb_true_iff in H as [H|H]; apply Nat.eqb_eq in H; congruence.
Qed.

Lemma agree_same_extent x y d : agree false x y d = true → x !! d = y !! d.
Proof.
  unfold agree. destruct (x !! d), (y !! d); try done.
  rewrite andb_false_l, orb_false_r. intros H. apply Nat.eqb_eq in H. by subst.
Qed.

Lemma check_shape_no_clash dim x y :
  check_shape (Some x) (Some y) [0] true = Ok tt →
  check_shape (Some x) (Some y) (seq 2 dim) false = Ok tt →
  ¬ batch_clash y x ∧ ¬ spatial_clash dim y x.
Proof.
  intros H0 H2. split.
  - apply agree_no_batch_clash. apply (check_shape_ok _ _ _ _ H0). by left.
  - intros (d & Hd & Hne). apply Hne. symmetry.
    apply agree_same_extent. apply (check_shape_ok _ _ _ _ H2).
    apply in_seq. lia.
Qed.

(** If the checks pass, there is no violation. *)
Lemma sanity_checks_ok self source target source_seg target_seg :
  sanity_checks self source target source_seg target_seg = Ok tt →
  (¬ batch_clash source target ∧ ¬ spatial_clash (dim self) source target)
  ∧ ∀ s t, source_seg = Some s → target_seg = Some t →
      ¬ batch_clash s t ∧ ¬ spatial_clash (dim self) s t.
Proof.
  unfold sanity_checks.
  destruct (check_dim _ _) as [[]|]; [|done]. cbn [bind].
  destruct (check_shape (Some target) (Some source) [0] true) as [[]|] eqn:E1;
    [|done]. cbn [bind].
  destruct (check_shape (Some target) (Some source) (seq 2 (dim self)) false)
    as [[]|] eqn:E2; [|done]. cbn [bind].
  destruct (check_shape target_seg source_seg [0] true) as [[]|] eqn:E3;
    [|done]. cbn [bind].
  intros E4. split.
  - by apply check_shape_no_clash.
  - intros s t -> ->. by apply check_shape_no_clash.
Qed.

(** Nothing is called before the checks have passed. *)
Lemma forward_events_after_checks scaled self source target source_seg target_seg :
  (forward scaled self source target source_seg target_seg).1 ≠ [] →
  sanity_checks self source target source_seg target_seg = Ok tt.
Proof.
  unfold forward.
  destruct (sanity_checks _ _ _ _ _) as [[]|]; [done|]. by cbn.
Qed.

End VoxelMorphFacts.

Import VoxelMorph.

(** C6.  When source and target disagree in batch size (and neither batch
    size is 1) or in a spatial extent, or when both segmentation maps are
    given and disagree in the same way, [VoxelMorph.forward] raises
    [ValueError] and has called neither the feature network nor any
    transform: the trace of calls is empty. *)
Theorem C6_shape_mismatch_fails_first
    (scaled : Q → nat → nat) (self : instance) (source target : list nat)
    (source_seg target_seg : option (list nat)) :
  batch_clash source target ∨ spatial_clash (dim self) source target
  ∨ (∃ s t, source_seg = Some s ∧ target_seg = Some t
            ∧ (batch_clash s t ∨ spatial_clash (dim self) s t)) →
  ∃ msg, forward scaled self source target source_seg target_seg
         = ([], Raise (ValueError msg)).
Proof.
  intros Hclash. unfold forward.
  destruct (VoxelMorphFacts.sanity_checks_cases self source target source_seg target_seg)
    as [Hok|[msg ->]]; [|by exists msg].
  exfalso.
  destruct (VoxelMorphFacts.sanity_checks_ok _ _ _ _ _ Hok) as [[Hb Hs] Hseg].
  destruct Hclash as [H|[H|(s & t & Hs' & Ht' & H)]]; [done|done|].
  destruct (Hseg s t Hs' Ht') as [Hb' Hs'']. by destruct H.
Qed.

Lemma C6_shape_mismatch_fails_first_witness :
  ∃ msg, forward (fun _ n => n) (init 2 (Scalar 2) false)
           [2; 1; 32; 32] [2; 1; 32; 16] None None
         = ([], Raise (ValueError msg)).
Proof.
  apply C6_shape_mismatch_fails_first.
  right. left. exists 3. cbn. split; [lia|done].
Defined.

(** C7.  [VoxelMorph.exp] makes exactly three calls, in this order: the
    velocity is resized with the module's factor and type 'displacement';
    the resized velocity is exponentiated with the caller's [displacement]
    flag; the result is resized to the spatial shape of the input velocity,
    with no factor, and with type 'disp' if a displacement was requested and
    'grid' otherwise.  The grid returned has the spatial shape (and the batch
    and vector extents) of the input velocity. *)
Theorem C7_exp_state_machine
    (scaled : Q → nat → nat) (self : instance) (v : grid) (displacement : bool) :
  ∃ small big,
    (exp scaled self v displacement).1
    = [Resize v "displacement" (Some (resize_factor self)) None;
       VelExp small displacement;
       Resize big (if displacement then "disp" else "grid") None (Some (spatial v))]
    ∧ small = resize_forward scaled v (Some (resize_factor self)) None
    ∧ big = velexp_forward small
    ∧ (exp scaled self v displacement).2 = resize_forward scaled big None (Some (spatial v))
    ∧ spatial (exp scaled self v displacement).2 = spatial v
    ∧ batch (exp scaled self v displacement).2 = batch v
    ∧ nb_dim (exp scaled self v displacement).2 = nb_dim v.
Proof. eexists _, _. by repeat split. Qed.

(* ===================================================================== *)
(** * Further properties of RandomGridGreens *)
(* ===================================================================== *)

Module GridProperties.
Import Torch Greens RandomGridGreens GridFacts.

Lemma broadcast_rev_longer_left l r : broadcast_rev (l ++ r) l = Ok (l ++ r).
Proof.
  induction l as [|x l IH]; cbn; [by destruct r|].
  rewrite IH. cbn. by rewrite Nat.eqb_refl.
Qed.

Lemma broadcast_rev_longer_right l r : broadcast_rev l (l ++ r) = Ok (l ++ r).
Proof.
  induction l as [|x l IH]; cbn; [done|].
  rewrite IH. cbn. by rewrite Nat.eqb_refl.
Qed.

Lemma matvec_site bm pre m n :
  matvec (bm ++ [m; n]) (pre ++ bm ++ [n]) = Ok (pre ++ bm ++ [m]).
Proof.
  unfold matvec. rewrite !rev_app_distr. cbn [rev app].
  rewrite Nat.eqb_refl, broadcast_rev_longer_right. cbn [bind rev].
  rewrite rev_app_distr, !rev_involutive. by rewrite <- app_assoc.
Qed.

Lemma broadcast_site pre sh d :
  bind (broadcast (pre ++ sh ++ [d]) (unsqueeze_last sh)) (fun s => broadcast s [d])
  = Ok (pre ++ sh ++ [d]).
Proof.
  assert (E' : ∀ a : list nat, broadcast_rev a [] = Ok a) by (by intros []).
  unfold broadcast, unsqueeze_last. rewrite !rev_app_distr. cbn [rev app broadcast_rev].
  rewrite broadcast_rev_longer_left. cbn [bind].
  replace (if d =? 1 then Ok (d :: rev sh ++ rev pre)
           else if d =? 1 then Ok (1 :: rev sh ++ rev pre)
           else if 1 =? 1 then Ok (d :: rev sh ++ rev pre)
           else Raise (RuntimeError
             "the size of tensor a must match the size of tensor b"))
    with (Ok (d :: rev sh ++ rev pre) : result (list nat))
    by (by destruct (d =? 1)).
  cbn [bind rev]. rewrite rev_unit. cbn [rev app broadcast_rev].
  rewrite E'. cbn [bind]. rewrite Nat.eqb_refl. cbn [bind rev].
  rewrite rev_app_distr, !rev_involutive. by rewrite <- app_assoc.
Qed.

(** The filter accepts a matrix kernel built for the lattice. *)
Lemma sample_matrix_kernel batch sh k :
  k_shape k = sh ++ [length sh; length sh] →
  sample batch sh k = Ok (Field ([batch] ++ sh ++ [length sh]) k).
Proof.
  intros Hk. unfold sample. rewrite Hk.
  replace (length sh <? length (sh ++ [length sh; length sh])) with true
    by (symmetry; apply Nat.ltb_lt; rewrite length_app; cbn; lia).
  by rewrite (matvec_site sh [2; batch]).
Qed.

(** ... and a scalar kernel built for the lattice. *)
Lemma sample_scalar_kernel batch sh k :
  k_shape k = sh →
  sample batch sh k = Ok (Field ([batch] ++ sh ++ [length sh]) k).
Proof.
  intros Hk. unfold sample. rewrite Hk, Nat.ltb_irrefl.
  by rewrite (broadcast_site [2; batch] sh).
Qed.

Lemma square_root_shape s sh vs k :
  square_root (make_list2 (lame s)) (greens_call_of s sh vs) = Ok k →
  k_shape k = sh ∨ k_shape k = sh ++ [length sh; length sh].
Proof.
  unfold square_root, svd_shapes, greens_shape. cbn [greens_call_of g_lame g_shape].
  destruct (any_nonzero (make_list2 (lame s))).
  - unfold inplace. rewrite fits_scaled_rows. cbn. intros [= <-]. by right.
  - intros [= <-]. by left.
Qed.

(** X1.  On an instance that holds no kernel, [forward] returns for every lattice
    shape and batch size: it builds one kernel and yields a field of shape
    [(batch, *shape, len(shape))]. *)
Theorem grid_first_call_returns s batch o sh :
  attrs s !! "_greens" = None →
  from_option Some (shape s) (o_shape o) = Some sh →
  ∃ k, ret (forward s batch o) = Ok (Field ([batch] ++ sh ++ [length sh]) k)
       ∧ built (forward s batch o) = k_calls k
       ∧ k_calls k = [greens_call_of s sh
                        (make_vector (default (voxel_size s) (o_voxel_size o))
                                     (length sh))].
Proof.
  intros He Hsh.
  destruct (grid_forward_fresh s batch o sh He Hsh) as (k & Hk & Hcalls & ->).
  exists k. cbn [ret built]. split; [|by rewrite Hcalls].
  destruct (square_root_shape _ _ _ _ Hk) as [E|E].
  - by apply sample_scalar_kernel.
  - by apply sample_matrix_kernel.
Qed.

Lemma grid_first_call_returns_witness :
  let s := init None 0 0.0001 0.001 0.2 (Vector [0.05; 0.2]%Q) (Scalar 1) true in
  let o := Overload (Some [8; 6; 4]) None (Some (Vector [1; 2; 3]%Q)) None in
  ∃ k, ret (forward s 5 o) = Ok (Field ([5] ++ [8; 6; 4] ++ [length [8; 6; 4]]) k)
       ∧ built (forward s 5 o) = k_calls k
       ∧ k_calls k = [greens_call_of s [8; 6; 4]
                        (make_vector (default (voxel_size s) (o_voxel_size o))
                                     (length [8; 6; 4]))].
Proof. cbn zeta. apply grid_first_call_returns; reflexivity. Defined.

(** X3.  After a call that built and stored a kernel, a request for a lattice
    of other extents is never answered from the cache, whatever its batch
    size and voxel size: it builds exactly one kernel, for the lattice and
    the voxel size it asks for and with the weights of the instance, and
    returns a field on that lattice. *)
Theorem grid_other_lattice_rebuilds s batch o sh batch' o' sh' :
  cache_greens s = true → attrs s !! "_greens" = None →
  from_option Some (shape s) (o_shape o) = Some sh →
  from_option Some (shape s) (o_shape o') = Some sh' →
  sh' ≠ sh →
  let vs' := make_vector (default (voxel_size s) (o_voxel_size o')) (length sh') in
  let later := forward (after (forward s batch o)) batch' o' in
  built later = [greens_call_of s sh' vs']
  ∧ ∃ k', ret later = Ok (Field ([batch'] ++ sh' ++ [length sh']) k')
          ∧ k_calls k' = built later.
Proof.
  intros Hc He Hsh Hsh' Hne. cbn zeta.
  destruct (grid_forward_fresh s batch o sh He Hsh) as (k & _ & _ & ->).
  cbn [after]. set (vs := make_vector _ (length sh)).
  set (vs' := make_vector _ (length sh')).
  destruct (grid_store_fields s k vs sh) as (Hs' & Hvs' & _).
  unfold forward. rewrite Hs', Hsh', Hvs'. fold vs'.
  rewrite grid_cache_valid_after_store by done.
  assert (Hcall : greens_call_of (store s k vs sh) sh' vs' = greens_call_of s sh' vs').
  { unfold store. by rewrite Hc. }
  destruct (square_root_ok (store s k vs sh) sh' vs') as (k' & Hk' & Hcalls).
  rewrite (ints_eqb_neq sh sh') by done. rewrite andb_false_r.
  rewrite Hk'. cbn [built ret]. rewrite Hcall. split; [done|].
  exists k'. split; [|by rewrite Hcalls, Hcall].
  destruct (square_root_shape _ _ _ _ Hk') as [E|E].
  - by apply sample_scalar_kernel.
  - by apply sample_matrix_kernel.
Qed.

Lemma grid_other_lattice_rebuilds_witness :
  let s := init (Some [8; 8]) 0 0.0001 0.001 0.2 (Vector [0.05; 0.2]%Q)
             (Scalar 1) true in
  let o' := Overload (Some [8; 4]) None (Some (Scalar 2)) None in
  let vs' := make_vector (default (voxel_size s) (o_voxel_size o')) (length [8; 4]) in
  let later := forward (after (forward s 4 no_overload)) 1 o' in
  built later = [greens_call_of s [8; 4] vs']
  ∧ ∃ k', ret later = Ok (Field ([1] ++ [8; 4] ++ [length [8; 4]]) k')
          ∧ k_calls k' = built later.
Proof.
  cbn zeta.
  apply (grid_other_lattice_rebuilds _ 4 no_overload [8; 8] 1 _ [8; 4]);
    try reflexivity. discriminate.
Defined.

(** X2.  Cache correctness of the vector-field sampler: after a call that
    built a kernel, the same request is answered from the stored kernel, makes
    no call to [spatial.greens], leaves the instance as it is and returns
    what the first call returned. *)
Theorem grid_repeat_reuses s batch o sh :
  cache_greens s = true → attrs s !! "_greens" = None →
  from_option Some (shape s) (o_shape o) = Some sh →
  let first := forward s batch o in
  let again := forward (after first) batch o in
  length (built first) = 1 ∧ built again = [] ∧ after again = after first
  ∧ ret again = ret first.
Proof. apply repeat_reuses. Qed.

Lemma grid_repeat_reuses_witness :
  let s := init (Some [16; 16]) 0 0.0001 0.001 0.2 (Vector [0.05; 0.2]%Q)
             (Scalar 1) true in
  let first := forward s 3 no_overload in
  let again := forward (after first) 3 no_overload in
  length (built first) = 1 ∧ built again = [] ∧ after again = after first
  ∧ ret again = ret first.
Proof.
  cbn zeta. apply (grid_repeat_reuses _ 3 no_overload [16; 16]); reflexivity.
Defined.

(** X4.  The weights are not part of the cache key of the vector-field
    sampler: after a call that built a kernel, changing [absolute],
    [membrane], [bending] and [lame] on the instance changes nothing in the
    next call, which builds no kernel and returns what the first call
    returned (a field filtered by the kernel of the old weights). *)
Theorem grid_new_weights_keep_kernel s batch o sh a m b l :
  cache_greens s = true → attrs s !! "_greens" = None →
  from_option Some (shape s) (o_shape o) = Some sh →
  let first := forward s batch o in
  let next := forward (set_weights (after first) a m b l) batch o in
  built next = [] ∧ ret next = ret first.
Proof. apply grid_stale_after_build. Qed.

Lemma grid_new_weights_keep_kernel_witness :
  let s := init (Some [16; 16]) 0 0.0001 0.001 0.2 (Vector [0.05; 0.2]%Q)
             (Scalar 1) true in
  let first := forward s 3 no_overload in
  let next := forward (set_weights (after first) 1 2 3 (Scalar 0)) 3 no_overload in
  built next = [] ∧ ret next = ret first.
Proof.
  cbn zeta. apply (grid_new_weights_keep_kernel _ 3 no_overload [16; 16]);
    reflexivity.
Defined.

End GridProperties.

(* ===================================================================== *)
(** * Further properties of RandomFieldGreens *)
(* ===================================================================== *)

Module FieldProperties.
Import Torch Greens RandomFieldGreens FieldFacts Shapes.

Lemma fits_rev_snoc ra rb x y :
  length ra = length rb →
  fits_rev (ra ++ [x]) (rb ++ [y]) = fits_rev ra rb && ((y =? x) || (y =? 1)).
Proof.
  revert rb. induction ra as [|a ra IH]; intros [|b rb] Hlen; try done.
  - cbn. by rewrite andb_true_r.
  - cbn in Hlen. cbn. rewrite IH by lia. by rewrite andb_assoc.
Qed.

Lemma fits_rev_longer ra rb x :
  length rb ≤ length ra → fits_rev (ra ++ [x]) rb = fits_rev ra rb.
Proof.
  revert rb. induction ra as [|a ra IH]; intros [|b rb] Hlen; try done.
  - cbn in Hlen. lia.
  - cbn in Hlen. cbn. rewrite IH by lia. done.
Qed.

Lemma fits_cons_both x a y b :
  length a = length b →
  fits (x :: a) (y :: b) = ((y =? x) || (y =? 1)) && fits a b.
Proof.
  intros Hlen. unfold fits. cbn [rev].
  rewrite fits_rev_snoc by (by rewrite !length_rev). apply andb_comm.
Qed.

Lemma fits_cons_left x a b : length b ≤ length a → fits (x :: a) b = fits a b.
Proof.
  intros Hlen. unfold fits. cbn [rev].
  apply fits_rev_longer. by rewrite !length_rev.
Qed.

(** The product on line 320: the kernel of shape [(channel, *shape, 1)]
    against the noise of shape [(2, batch, channel, *shape)]. *)
Lemma fits_shifted b l : fits (b :: l) (l ++ [1]) = steps_down b l.
Proof.
  revert b. induction l as [|c l IH]; intros b.
  - cbn. by rewrite orb_true_r.
  - cbn [app steps_down]. rewrite fits_cons_both by (rewrite length_app; cbn; lia).
    by rewrite IH.
Qed.

Lemma fits_ones l : fits l (repeat 1 (length l)) = true.
Proof.
  induction l as [|x l IH]; [done|]. cbn [length repeat].
  rewrite fits_cons_both by (by rewrite repeat_length).
  by rewrite IH, orb_true_r.
Qed.

(** Lines 318-331 with a freshly built kernel. *)
Lemma sample_fresh batch n sh k m :
  k_shape k = S n :: sh → length m = S n →
  sample batch (S n) sh k (Some m)
  = if steps_down batch (S n :: sh)
    then Ok (Field ([batch; S n] ++ sh) k)
    else Raise (RuntimeError "mul_: output shape doesn't match the broadcast shape").
Proof.
  intros Hk Hm. unfold sample. rewrite Hk. unfold inplace at 1.
  replace ([2; batch; S n] ++ sh) with (2 :: batch :: (S n :: sh)) by done.
  unfold unsqueeze_last. rewrite fits_cons_left by (rewrite length_app; cbn; lia).
  rewrite fits_shifted.
  destruct (steps_down batch (S n :: sh)); [|done].
  cbn [bind complex_of_parts Nat.leb]. unfold inplace. rewrite Hm.
  rewrite fits_cons_left by (cbn; rewrite repeat_length; lia).
  rewrite fits_cons_both by (by rewrite repeat_length).
  by rewrite fits_ones, Nat.eqb_refl.
Qed.

(** X5.  On an instance that holds no kernel, [forward] returns exactly when there
    is at least one channel and, in the sequence batch, channel, *shape, every
    extent equals the one before it or is 1; then the field has shape
    [(batch, channel, *shape)].  For every other request torch raises. *)
Theorem field_first_call_returns_iff s batch o sh :
  attrs s !! "_greens" = None →
  from_option Some (shape s) (o_shape o) = Some sh →
  let c := default (channel s) (o_channel o) in
  if (0 <? c) && steps_down batch (c :: sh)
  then ∃ k, ret (forward s batch o) = Ok (Field ([batch; c] ++ sh) k)
            ∧ length (k_calls k) = c
  else ∃ msg, ret (forward s batch o) = Raise (RuntimeError msg).
Proof.
  intros He Hsh. cbn zeta.
  destruct (default (channel s) (o_channel o)) as [|n] eqn:En.
  - cbn [Nat.ltb Nat.leb andb]. unfold forward. rewrite Hsh, En.
    rewrite field_cache_valid_fresh by done. cbn. eauto.
  - rewrite (field_forward_fresh s batch o sh n He Hsh En). cbn [ret].
    replace (0 <? S n) with true by done. cbn [andb].
    rewrite sample_fresh by (done || apply length_make_vector).
    destruct (steps_down batch (S n :: sh)); [|eauto].
    eexists. split; [reflexivity|]. cbn [k_calls]. unfold greens_calls.
    by rewrite length_map, length_seq.
Qed.

Lemma field_first_call_returns_iff_witness :
  let s := init (Some [16; 16]) (Scalar 0) 1 (Scalar 0.001) (Scalar 0.1)
             (Scalar 0) (Scalar 1) true in
  let c := default (channel s) (o_channel no_overload) in
  if (0 <? c) && steps_down 1000 (c :: [16; 16])
  then ∃ k, ret (forward s 1000 no_overload) = Ok (Field ([1000; c] ++ [16; 16]) k)
            ∧ length (k_calls k) = c
  else ∃ msg, ret (forward s 1000 no_overload) = Raise (RuntimeError msg).
Proof.
  cbn zeta. apply (field_first_call_returns_iff _ 1000 no_overload [16; 16]);
    reflexivity.
Defined.

Lemma cache_never_valid s vs c sh :
  attrs s !! "_channel" = None → cache_valid s vs c sh ≠ Ok true.
Proof.
  intros Hn. unfold cache_valid, getattr. destruct (hasattr s "_greens"); [|done].
  destruct (attrs s !! "_voxel_size") as [v|]; [|done]. cbn [bind].
  destruct (py_eq v (VFloats vs)); [|done]. by rewrite Hn.
Qed.

Lemma served_by_own_kernel s batch o :
  attrs s !! "_channel" = None →
  ∀ f, ret (forward s batch o) = Ok f →
       built (forward s batch o) ≠ []
       ∧ k_calls (field_greens f) = built (forward s batch o).
Proof.
  intros Hn f. unfold forward.
  destruct (from_option Some (shape s) (o_shape o)) as [sh|]; [|done].
  pose proof (cache_never_valid s
    (make_vector (default (voxel_size s) (o_voxel_size o)) (length sh))
    (default (channel s) (o_channel o)) sh Hn) as Hv.
  destruct (cache_valid s _ _ sh) as [[|]|e]; [done| |done].
  destruct (stack _) as [ks|] eqn:Es; [|done]. cbn [ret built].
  destruct (greens_calls s sh _ _) as [|call calls] eqn:Ec; [done|].
  unfold sample. destruct (inplace "mul_" _ _); [|done]. cbn [bind].
  destruct (complex_of_parts _); [|done]. cbn [bind].
  destruct (inplace "add_" _ _); [|done]. cbn [bind]. by intros [= <-].
Qed.

(** X6.  However long the sampler is used, it never returns a field from its
    cache: every field it returns was filtered by a kernel built during that
    very call (the attribute [_channel], which a cache hit needs, is neither
    set by the constructor nor by any call). *)
Theorem field_cache_never_serves s requests :
  attrs s !! "_channel" = None →
  Forall (fun r => ∀ f, ret r = Ok f →
                    built r ≠ [] ∧ k_calls (field_greens f) = built r)
         (forward_all s requests).
Proof.
  revert s. induction requests as [|[batch o] rest IH]; intros s Hn; cbn.
  - constructor.
  - constructor.
    + by apply served_by_own_kernel.
    + apply IH. by rewrite forward_never_sets_channel.
Qed.

Lemma field_cache_never_serves_witness :
  let s := init (Some [4; 4]) (Scalar 0) 4 (Scalar 0.001) (Scalar 0.1)
             (Scalar 0) (Scalar 1) true in
  Forall (fun r => ∀ f, ret r = Ok f →
                    built r ≠ [] ∧ k_calls (field_greens f) = built r)
         (forward_all s [(4, no_overload); (4, no_overload);
                         (4, Overload (Some [4; 4; 4]) None None None)]).
Proof. cbn zeta. apply field_cache_never_serves. reflexivity. Defined.

(** X7.  On a caching scalar-field sampler that holds no kernel yet, after
    any call that builds one (at least one channel), every later call with
    the same voxel size and a lattice of the same dimension raises
    [AttributeError] on [_channel], whatever its batch size and lattice
    extents; it builds nothing and leaves the instance as it is. *)
Theorem field_repeat_raises s batch o sh batch' sh' :
  cache_greens s = true →
  attrs s !! "_greens" = None → attrs s !! "_channel" = None →
  from_option Some (shape s) (o_shape o) = Some sh →
  0 < default (channel s) (o_channel o) →
  length sh' = length sh →
  let first := forward s batch o in
  let again := forward (after first) batch'
                 (Overload (Some sh') (o_channel o) (o_voxel_size o) (o_mean o)) in
  built first ≠ [] ∧ built again = [] ∧ after again = after first
  ∧ ret again = Raise (AttributeError "_channel").
Proof. apply repeat_raises. Qed.

Lemma field_repeat_raises_witness :
  let s := init (Some [16; 16]) (Scalar 0) 1 (Scalar 0.001) (Scalar 0.1)
             (Scalar 0) (Scalar 1) true in
  let first := forward s 1 no_overload in
  let again := forward (after first) 7
                 (Overload (Some [32; 8]) None None None) in
  built first ≠ [] ∧ built again = [] ∧ after again = after first
  ∧ ret again = Raise (AttributeError "_channel").
Proof.
  cbn zeta. apply (field_repeat_raises _ 1 no_overload [16; 16] 7 [32; 8]);
    try reflexivity. cbn. lia.
Defined.

End FieldProperties.

(* ===================================================================== *)
(** * Further properties of the square-root stage and the filter *)
(* ===================================================================== *)

Module FilterProperties.
Import NumericFacts.
Local Open Scope R_scope.

Lemma rsum_plus n f g : rsum n (fun j => f j + g j) = rsum n f + rsum n g.
Proof.
  unfold rsum. induction (seq 0 n) as [|j l IH]; cbn; [lra|].
  rewrite IH. lra.
Qed.

(** X8.  For every kernel with elastic term, at every frequency and whatever
    decomposition [torch.svd] returns, the factor [R] computed on lines
    423-425 satisfies [R R^T = diag(s)]: the singular values on the diagonal,
    zero elsewhere. *)
Theorem sqrt_lame_gram_is_diagonal
    (S : list nat) (d : nat) (x : list nat) (k u s v : tensor) (i j : nat) :
  Forall2 lt x S → is_svd d x k u s v → tshape s = (S ++ [d])%nat →
  (i < d)%nat → (j < d)%nat →
  gram d (sqrt_lame u s) x i j = if (i =? j)%nat then elem s (x ++ [i]) else 0.
Proof.
  intros Hx Hsvd Hs Hi Hj.
  rewrite (RootFacts.gram_sqrt_lame S d x Hx k u s v i j Hsvd Hs Hi Hj).
  unfold kronecker. destruct (i =? j)%nat; ring.
Qed.

Lemma sqrt_lame_gram_is_diagonal_witness :
  gram 2 (sqrt_lame vectors_2x2 values_2x2) [] 1 1
  = if (1 =? 1)%nat then elem values_2x2 ([] ++ [1%nat]) else 0.
Proof.
  apply (sqrt_lame_gram_is_diagonal [] 2 [] kernel_2x2 vectors_2x2 values_2x2
           vectors_2x2 1 1).
  - constructor.
  - apply RootFacts.is_svd_2x2.
  - reflexivity.
  - lia.
  - lia.
Defined.

(** X9.  Square-root stage and filter together, without elastic term: the square
    of a filtered entry is the square of the noise entry times the Greens
    kernel at its site, divided by the voxel size of its component's axis. *)
Theorem scalar_filter_squares
    (S : list nat) (B p b : nat) (x : list nat) (i : nat)
    (greens : tensor) (voxel_size : list R) (sample : tensor) :
  (p < 2)%nat → (b < B)%nat → Forall2 lt x S → (i < length S)%nat →
  tshape sample = ([2; B] ++ S ++ [length S])%nat →
  tshape greens = S → length voxel_size = length S →
  0 <= elem greens x → 0 < nth i voxel_size 0 →
  let out := spectral_filter (length S) (sqrt_scalar greens) voxel_size sample in
  elem out ([p; b] ++ x ++ [i]) * elem out ([p; b] ++ x ++ [i])
  = elem sample ([p; b] ++ x ++ [i]) * elem sample ([p; b] ++ x ++ [i])
    * elem greens x / nth i voxel_size 0.
Proof.
  intros Hp Hb Hx Hi Hs Hg Hv Hk Hvox. cbn zeta.
  rewrite (FilterFacts.filter_scalar S B p b x i Hp Hb Hx Hi) by done.
  cbn [elem sqrt_scalar tsqrt tmap].
  revert Hk Hvox.
  generalize (elem sample ([p; b] ++ x ++ [i])), (elem greens x),
    (nth i voxel_size 0).
  intros n g w Hk Hvox.
  assert (Hw : sqrt w * sqrt w = w) by (apply sqrt_sqrt; lra).
  assert (Hg' : sqrt g * sqrt g = g) by (by apply sqrt_sqrt).
  assert (Hw0 : sqrt w <> 0).
  { intros E. rewrite E in Hw. lra. }
  transitivity (n * n * (sqrt g * sqrt g) / (sqrt w * sqrt w)).
  - field. done.
  - by rewrite Hg', Hw.
Qed.

Lemma scalar_filter_squares_witness :
  let greens := Tensor [2; 2]%nat (fun idx => INR (1 + hd 0%nat idx)) in
  let sample := Tensor [2; 1; 2; 2; 2]%nat (fun idx => INR (1 + hd 0%nat idx)) in
  let out := spectral_filter (length [2; 2]%nat) (sqrt_scalar greens) [4; 9] sample in
  elem out ([1; 0] ++ [1; 0] ++ [1])%nat * elem out ([1; 0] ++ [1; 0] ++ [1])%nat
  = elem sample ([1; 0] ++ [1; 0] ++ [1])%nat
    * elem sample ([1; 0] ++ [1; 0] ++ [1])%nat
    * elem greens [1; 0]%nat / nth 1 [4; 9] 0.
Proof.
  cbn zeta.
  apply (scalar_filter_squares [2; 2]%nat 1 1 0 [1; 0]%nat 1);
    cbn; try lia; try done; try lra.
  repeat constructor.
Defined.

(** X10.  The filter is linear in the noise, for both kinds of kernel: if one
    noise array is [a] times a second plus a third, entry by entry, so is
    its filtered array. *)
Theorem spectral_filter_linear
    (S : list nat) (B p b : nat) (x : list nat) (i : nat)
    (greens : tensor) (voxel_size : list R) (n n1 n2 : tensor) (a : R) :
  (p < 2)%nat → (b < B)%nat → Forall2 lt x S → (i < length S)%nat →
  tshape n = ([2; B] ++ S ++ [length S])%nat →
  tshape n1 = tshape n → tshape n2 = tshape n →
  length voxel_size = length S →
  tshape greens = S ∨ tshape greens = (S ++ [length S; length S])%nat →
  (∀ idx, elem n idx = a * elem n1 idx + elem n2 idx) →
  elem (spectral_filter (length S) greens voxel_size n) ([p; b] ++ x ++ [i])
  = a * elem (spectral_filter (length S) greens voxel_size n1) ([p; b] ++ x ++ [i])
    + elem (spectral_filter (length S) greens voxel_size n2) ([p; b] ++ x ++ [i]).
Proof.
  intros Hp Hb Hx Hi Hn Hn1 Hn2 Hv [Hg|Hg] Hlin.
  - rewrite !(FilterFacts.filter_scalar S B p b x i Hp Hb Hx Hi) by congruence.
    rewrite Hlin. unfold Rdiv. ring.
  - rewrite !(FilterFacts.filter_lame S B p b x i Hp Hb Hx Hi) by congruence.
    rewrite <- rsum_scale, <- rsum_plus. apply rsum_ext. intros j _.
    rewrite Hlin. ring.
Qed.

Lemma spectral_filter_linear_witness :
  let matrix := Tensor [2; 2; 2; 2]%nat (fun idx => INR (List.last idx 0%nat)) in
  let n1 := Tensor [2; 1; 2; 2; 2]%nat (fun idx => INR (1 + hd 0%nat idx)) in
  let n2 := Tensor [2; 1; 2; 2; 2]%nat (fun idx => INR (List.last idx 0%nat)) in
  let n := Tensor [2; 1; 2; 2; 2]%nat (fun idx => 3 * elem n1 idx + elem n2 idx) in
  elem (spectral_filter (length [2; 2]%nat) matrix [4; 9] n)
       ([1; 0] ++ [1; 0] ++ [1])%nat
  = 3 * elem (spectral_filter (length [2; 2]%nat) matrix [4; 9] n1)
             ([1; 0] ++ [1; 0] ++ [1])%nat
    + elem (spectral_filter (length [2; 2]%nat) matrix [4; 9] n2)
           ([1; 0] ++ [1; 0] ++ [1])%nat.
Proof.
  cbn zeta.
  apply (spectral_filter_linear [2; 2]%nat 1 1 0 [1; 0]%nat 1);
    try (cbn; lia); try reflexivity.
  - repeat constructor.
  - by right.
Defined.

End FilterProperties.

(* ===================================================================== *)
(** * Further properties of VoxelMorph.forward *)
(* ===================================================================== *)

Module ForwardProperties.
Import VoxelMorphFacts.

Lemma check_dim_ok dim source target :
  check_dim dim [source; target] = Ok tt →
  length source = dim + 2 ∧ length target = dim + 2.
Proof.
  unfold check_dim. cbn [forallb]. destruct (length source =? dim + 2) eqn:E1; [|done].
  destruct (length target =? dim + 2) eqn:E2; [|done].
  intros _. split; by apply Nat.eqb_eq.
Qed.

(** What the checks establish about source and target. *)
Lemma sanity_checks_shapes self source target source_seg target_seg :
  sanity_checks self source target source_seg target_seg = Ok tt →
  length source = dim self + 2 ∧ length target = dim self + 2
  ∧ drop 2 source = drop 2 target.
Proof.
  unfold sanity_checks.
  destruct (check_dim _ _) as [[]|] eqn:E0; [|done]. cbn [bind].
  destruct (check_shape (Some target) (Some source) [0] true) as [[]|]; [|done].
  cbn [bind].
  destruct (check_shape (Some target) (Some source) (seq 2 (dim self)) false)
    as [[]|] eqn:E2; [|done].
  intros _. destruct (check_dim_ok _ _ _ E0) as [Hs Ht].
  split; [done|]. split; [done|].
  apply list_eq. intros n. rewrite !lookup_drop.
  destruct (decide (n < dim self)) as [Hn|Hn].
  - symmetry. apply agree_same_extent. apply (check_shape_ok _ _ _ _ E2).
    apply in_seq. lia.
  - rewrite !lookup_ge_None_2; [done|lia|lia].
Qed.



(** X12.  The checks let a batch of 1 stand against any batch size, but the
    concatenation on line 223 does not: such a call passes validation and
    then raises in [torch.cat], before the feature network is called. *)
Theorem forward_unequal_batch_fails_at_cat
    (scaled : Q → nat → nat) (self : instance) (source target : list nat)
    (source_seg target_seg : option (list nat)) :
  sanity_checks self source target source_seg target_seg = Ok tt →
  source !! 0 ≠ target !! 0 →
  ∃ msg, forward scaled self source target source_seg target_seg
         = ([Cat source target], Raise (RuntimeError msg)).
Proof.
  intros Hok Hb. destruct (sanity_checks_shapes _ _ _ _ _ Hok) as (Hs & Ht & Hsp).
  unfold forward. rewrite Hok.
  destruct source as [|b [|c s]]; [cbn in Hs; lia|cbn in Hs; lia|].
  destruct target as [|b' [|c' s']]; [cbn in Ht; lia|cbn in Ht; lia|].
  cbn [cat1]. destruct (Nat.eqb_spec b b') as [->|Hne]; [done|].
  cbn [andb]. eauto.
Qed.

Lemma forward_unequal_batch_fails_at_cat_witness :
  ∃ msg, forward (fun _ n => n) (init 2 (Scalar 2) false)
           [1; 1; 32; 32] [4; 1; 32; 32] None None
         = ([Cat [1; 1; 32; 32] [4; 1; 32; 32]], Raise (RuntimeError msg)).
Proof.
  apply forward_unequal_batch_fails_at_cat.
  - reflexivity.
  - done.
Defined.

(** X13.  On a call that passes the checks with a source segmentation, the feature
    network is called exactly once, the transformer exactly twice, and the
    deformation grid is resized to the lattice of the segmentation exactly
    when that lattice differs from the lattice of the image. *)
Theorem grid_resized_iff_lattices_differ
    (scaled : Q → nat → nat) (self : instance) (source target seg : list nat)
    (target_seg : option (list nat)) :
  sanity_checks self source target (Some seg) target_seg = Ok tt →
  source !! 0 = target !! 0 →
  let events := (forward scaled self source target (Some seg) target_seg).1 in
  length (List.filter (fun e => match e with UNet _ => true | _ => false end)
                      events) = 1
  ∧ length (List.filter (fun e => match e with Pull _ _ => true | _ => false end)
                        events) = 2
  ∧ ((∃ g, In (ResizeGrid g (drop 2 seg)) events) ↔ drop 2 seg ≠ drop 2 source)
  ∧ (∀ g sh, In (ResizeGrid g sh) events → sh = drop 2 seg).
Proof.
  intros Hok Hb. destruct (sanity_checks_shapes _ _ _ _ _ Hok) as (Hs & Ht & Hsp).
  cbn zeta. unfold forward. rewrite Hok.
  destruct source as [|b [|c s]]; [cbn in Hs; lia|cbn in Hs; lia|].
  destruct target as [|b' [|c' s']]; [cbn in Ht; lia|cbn in Ht; lia|].
  cbn in Hb, Hsp. rewrite !drop_0 in Hsp. injection Hb as <-. subst s'.
  cbn [cat1]. rewrite Nat.eqb_refl, bool_decide_eq_true_2 by done. cbn [andb].
  cbn [exp fst app]. cbn [drop].
  case_bool_decide as E; cbn [negb app List.filter length].
  - split; [done|]. split; [done|]. split.
    + split; [|done]. intros [g Hin].
      repeat (destruct Hin as [Hin|Hin]; [discriminate Hin|]). destruct Hin.
    + intros g sh Hin.
      repeat (destruct Hin as [Hin|Hin]; [discriminate Hin|]). destruct Hin.
  - split; [done|]. split; [done|]. split.
    + split; [done|]. intros _. eexists. do 6 right. left. reflexivity.
    + intros g sh Hin.
      do 6 (destruct Hin as [Hin|Hin]; [discriminate Hin|]).
      destruct Hin as [Hin|Hin]; [by injection Hin as _ <-|].
      repeat (destruct Hin as [Hin|Hin]; [discriminate Hin|]). destruct Hin.
Qed.

Lemma grid_resized_iff_lattices_differ_witness :
  let events := (forward (fun _ n => n) (init 3 (Scalar 2) false)
                   [2; 1; 32; 32; 32] [2; 1; 32; 32; 32]
                   (Some [2; 5; 64; 64; 64]) None).1 in
  length (List.filter (fun e => match e with UNet _ => true | _ => false end)
                      events) = 1
  ∧ length (List.filter (fun e => match e with Pull _ _ => true | _ => false end)
                        events) = 2
  ∧ ((∃ g, In (ResizeGrid g (drop 2 [2; 5; 64; 64; 64])) events)
     ↔ drop 2 [2; 5; 64; 64; 64] ≠ drop 2 [2; 1; 32; 32; 32])
  ∧ (∀ g sh, In (ResizeGrid g sh) events → sh = drop 2 [2; 5; 64; 64; 64]).
Proof.
  cbn zeta. apply grid_resized_iff_lattices_differ; reflexivity.
Defined.

End ForwardProperties.

(* ===================================================================== *)
(** * Properties of VoxelMorph.__init__ *)
(* ===================================================================== *)

Module InitProperties.
Import VoxelMorphInit.

Lemma lookup_setdefault k v (d : gmap string value) k' :
  setdefault k v d !! k'
  = if decide (k = k') then Some (default v (d !! k)) else d !! k'.
Proof.
  unfold setdefault. destruct (d !! k) as [w|] eqn:E; case_decide; subst;
    simplify_map_eq; done.
Qed.

(** What [setdefault] leaves under a key depends only on what was there. *)
Lemma setdefault_congr k v (d1 d2 : gmap string value) k' :
  d1 !! k' = d2 !! k' → setdefault k v d1 !! k' = setdefault k v d2 !! k'.
Proof. intros H. rewrite !lookup_setdefault. case_decide; subst; by rewrite H. Qed.

Lemma setdefault_keeps k v (d : gmap string value) k' w :
  d !! k' = Some w → setdefault k v d !! k' = Some w.
Proof. intros H. rewrite lookup_setdefault. case_decide; subst; by rewrite H. Qed.

Lemma exp_defaults_lookup (d : gmap string value) k :
  exp_defaults d !! k = from_option Some (exp_default k) (d !! k).
Proof.
  destruct (d !! k) as [w|] eqn:E; cbn [from_option].
  - unfold exp_defaults. by repeat apply setdefault_keeps.
  - unfold exp_default, exp_defaults. repeat apply setdefault_congr.
    by rewrite E, lookup_empty.
Qed.

Lemma pull_defaults_lookup (d : gmap string value) k :
  pull_defaults d !! k = from_option Some (pull_defaults ∅ !! k) (d !! k).
Proof.
  destruct (d !! k) as [w|] eqn:E; cbn [from_option].
  - unfold pull_defaults. by repeat apply setdefault_keeps.
  - unfold pull_defaults. repeat apply setdefault_congr.
    by rewrite E, lookup_empty.
Qed.

Lemma unet_defaults_lookup (d : gmap string value) k :
  unet_defaults d !! k = from_option Some (unet_defaults ∅ !! k) (d !! k).
Proof.
  destruct (d !! k) as [w|] eqn:E; cbn [from_option].
  - unfold unet_defaults. by repeat apply setdefault_keeps.
  - unfold unet_defaults. repeat apply setdefault_congr.
    by rewrite E, lookup_empty.
Qed.

Lemma reciprocals_spec l r :
  reciprocals l = Some r →
  r = map (fun f => 1 / f)%Q l ∧ Forall (fun f => ¬ (f == 0)%Q) l.
Proof.
  revert r. induction l as [|f l IH]; intros r; cbn.
  - intros [= <-]. by split.
  - destruct (Qeq_bool f 0) eqn:Ef; [done|].
    destruct (reciprocals l) as [r'|]; [|done]. intros [= <-].
    destruct (IH r' eq_refl) as [-> H]. split; [done|].
    constructor; [|done]. by apply Qeq_bool_neq in Ef.
Qed.

Lemma inr_eq {A B} (x y : B) : @inr A B x = inr y → x = y.
Proof. intros H. exact (f_equal (fun s => match s with inr b => b | inl _ => x end) H). Qed.

Lemma init_inv dim unet pull exp L :
  init dim unet pull exp = inr L →
  ∃ ds,
    vector_of (default VNone (delete "shoot" (exp_defaults (dict_or_empty exp))
                               !! "downsample")) dim = Some ds
    ∧ exp_kwargs (truthy (default VNone (exp_defaults (dict_or_empty exp) !! "shoot")))
        ds (delete "downsample" (delete "shoot" (exp_defaults (dict_or_empty exp))))
      = inr (velexp_kwargs L)
    ∧ reciprocals ds = Some (resize_factors L)
    ∧ velexp_shoot L
      = truthy (default VNone (exp_defaults (dict_or_empty exp) !! "shoot"))
    ∧ core L = VoxelMorph.Instance dim ds (velexp_shoot L)
    ∧ resize_interpolation L
      = default VNone (delete "downsample" (delete "shoot"
                         (exp_defaults (dict_or_empty exp))) !! "interpolation")
    ∧ resize_bound L
      = default VNone (delete "downsample" (delete "shoot"
                         (exp_defaults (dict_or_empty exp))) !! "bound")
    ∧ pull_kwargs L = pull_defaults (dict_or_empty pull)
    ∧ unet_kwargs L = unet_defaults (dict_or_empty unet).
Proof.
  unfold init.
  destruct (vector_of _ dim) as [ds|] eqn:Ev; [|discriminate].
  destruct (exp_kwargs _ ds _) as [e|kw] eqn:Ek; [discriminate|].
  destruct (reciprocals ds) as [r|] eqn:Er; [|discriminate].
  intros H. apply inr_eq in H. subst L. exists ds.
  lazy beta iota delta [velexp_kwargs resize_factors velexp_shoot core
    resize_interpolation resize_bound pull_kwargs unet_kwargs].
  split; [reflexivity|]. split; [exact Ek|]. split; [exact Er|].
  repeat split.
Qed.

Lemma velexp_kwargs_lookup dim unet pull exp L k :
  init dim unet pull exp = inr L →
  velexp_kwargs L !! k
  = if velexp_shoot L then
      if bool_decide (k ∈ ["shoot"; "downsample"; "interpolation"; "bound";
                           "voxel_size"])
      then None
      else if bool_decide (k = "factor")
      then times (default VNone (from_option Some (exp_default k)
                                   (dict_or_empty exp !! k)))
                 (prodq (VoxelMorph.downsample_vel (core L)))
      else from_option Some (exp_default k) (dict_or_empty exp !! k)
    else
      if bool_decide (k ∈ ["shoot"; "downsample"; "absolute"; "membrane";
                           "bending"; "lame"; "factor"])
      then None
      else from_option Some (exp_default k) (dict_or_empty exp !! k).
Proof.
  intros H. destruct (init_inv _ _ _ _ _ H)
    as (ds & _ & Hkw & _ & Hshoot & Hcore & _).
  rewrite Hcore. lazy beta iota delta [VoxelMorph.downsample_vel].
  rewrite Hshoot. clear Hshoot Hcore H.
  generalize dependent (velexp_kwargs L). intros kw.
  unfold exp_kwargs.
  destruct (truthy _).
  - destruct (times _ _) as [f|] eqn:Ef; [|discriminate].
    intros Hkw. apply inr_eq in Hkw. subst kw.
    rewrite !lookup_delete, !exp_defaults_lookup in Ef.
    rewrite lookup_insert, !lookup_delete, exp_defaults_lookup.
    rewrite !decide_False in Ef by done.
    repeat case_decide; subst;
      repeat case_bool_decide; try done; try set_solver.
  - intros Hkw. apply inr_eq in Hkw. subst kw.
    rewrite !lookup_delete, exp_defaults_lookup.
    repeat case_decide; subst;
      repeat case_bool_decide; try done; try set_solver.
Qed.

(** X14.  The keyword arguments that reach the exponentiation layer.  With
    scaling-and-squaring ([shoot] false): every option the caller gave, the
    defaults of [interpolation], [bound] and [steps] where the caller gave
    none, and none of [shoot], [downsample], [absolute], [membrane],
    [bending], [lame], [factor].  With geodesic shooting: every option the
    caller gave and every default, except [shoot], [downsample],
    [interpolation], [bound] and [voxel_size], and with [factor] multiplied
    by the product of the downsampling factors. *)
Theorem velexp_kwargs_characterised dim unet pull exp L k :
  init dim unet pull exp = inr L →
  velexp_kwargs L !! k
  = if velexp_shoot L then
      if bool_decide (k ∈ ["shoot"; "downsample"; "interpolation"; "bound";
                           "voxel_size"])
      then None
      else if bool_decide (k = "factor")
      then times (default VNone (from_option Some (exp_default k)
                                   (dict_or_empty exp !! k)))
                 (prodq (VoxelMorph.downsample_vel (core L)))
      else from_option Some (exp_default k) (dict_or_empty exp !! k)
    else
      if bool_decide (k ∈ ["shoot"; "downsample"; "absolute"; "membrane";
                           "bending"; "lame"; "factor"])
      then None
      else from_option Some (exp_default k) (dict_or_empty exp !! k).
Proof. apply velexp_kwargs_lookup. Qed.

Lemma velexp_kwargs_characterised_witness :
  let exp := Some ({[ "shoot" := VBool true; "downsample" := VNum 4 ]}
                   : gmap string value) in
  ∃ L, init 3 None None exp = inr L
  ∧ velexp_kwargs L !! "factor"
  = if velexp_shoot L then
      if bool_decide ("factor" ∈ ["shoot"; "downsample"; "interpolation"; "bound";
                           "voxel_size"])
      then None
      else if bool_decide ("factor" = "factor")
      then times (default VNone (from_option Some (exp_default "factor")
                                   (dict_or_empty exp !! "factor")))
                 (prodq (VoxelMorph.downsample_vel (core L)))
      else from_option Some (exp_default "factor") (dict_or_empty exp !! "factor")
    else
      if bool_decide ("factor" ∈ ["shoot"; "downsample"; "absolute"; "membrane";
                           "bending"; "lame"; "factor"])
      then None
      else from_option Some (exp_default "factor") (dict_or_empty exp !! "factor").
Proof.
  cbv zeta. eexists. split.
  - vm_compute. reflexivity.
  - apply (velexp_kwargs_characterised 3 None None). vm_compute. reflexivity.
Defined.

Lemma vector_of_length v dim ds : vector_of v dim = Some ds → length ds = dim.
Proof.
  unfold vector_of. destruct v as [|b|q|s|[|x l]|r]; try discriminate.
  - intros [= <-]. apply (length_make_vector (Scalar _)).
  - intros [= <-]. apply (length_make_vector (Scalar _)).
  - destruct (Nat.eqb_spec dim 0); [|discriminate]. intros [= <-]. by subst.
  - intros [= <-]. apply (length_make_vector (Vector (x :: l))).
Qed.

(** X15.  The resizing layer.  Its interpolation order and boundary condition are
    the caller's [interpolation] and [bound] (1 and 'dft' if not given), in
    both modes, and with scaling-and-squaring they are the ones the
    exponentiation layer receives.  Its factors are the [dim] quotients
    [1/f] of line 150, one for each downsampling factor [f], none of which
    is zero. *)
Theorem resize_layer_options dim unet pull exp L :
  init dim unet pull exp = inr L →
  resize_interpolation L
  = default (VNum 1) (dict_or_empty exp !! "interpolation")
  ∧ resize_bound L = default (VStr "dft") (dict_or_empty exp !! "bound")
  ∧ length (resize_factors L) = dim
  ∧ resize_factors L
    = map (fun f => 1 / f)%Q (VoxelMorph.downsample_vel (core L))
  ∧ Forall (fun f => ¬ (f == 0)%Q) (VoxelMorph.downsample_vel (core L))
  ∧ (velexp_shoot L = false →
     velexp_kwargs L !! "interpolation" = Some (resize_interpolation L)
     ∧ velexp_kwargs L !! "bound" = Some (resize_bound L)).
Proof.
  intros H. destruct (init_inv _ _ _ _ _ H)
    as (ds & Hds & _ & Hr & _ & Hcore & Hi & Hb & _).
  destruct (reciprocals_spec _ _ Hr) as [Hmap Hrec].
  assert (Ei : resize_interpolation L
               = default (VNum 1) (dict_or_empty exp !! "interpolation")).
  { rewrite Hi, !lookup_delete, !decide_False by done.
    rewrite exp_defaults_lookup.
    destruct (dict_or_empty exp !! "interpolation").
    - reflexivity.
    - vm_compute; reflexivity. }
  assert (Eb : resize_bound L
               = default (VStr "dft") (dict_or_empty exp !! "bound")).
  { rewrite Hb, !lookup_delete, !decide_False by done.
    rewrite exp_defaults_lookup.
    destruct (dict_or_empty exp !! "bound").
    - reflexivity.
    - vm_compute; reflexivity. }
  split; [exact Ei|]. split; [exact Eb|].
  split. { rewrite Hmap, length_map. by eapply vector_of_length. }
  rewrite Hcore. cbn [VoxelMorph.downsample_vel].
  split; [exact Hmap|]. split; [exact Hrec|].
  intros Hs.
  assert (Hni : "interpolation" ∉ ["shoot"; "downsample"; "absolute"; "membrane";
                                  "bending"; "lame"; "factor"]) by (clear; set_solver).
  assert (Hnb : "bound" ∉ ["shoot"; "downsample"; "absolute"; "membrane";
                          "bending"; "lame"; "factor"]) by (clear; set_solver).
  pose proof (velexp_kwargs_lookup _ _ _ _ _ "interpolation" H) as Ki.
  pose proof (velexp_kwargs_lookup _ _ _ _ _ "bound" H) as Kb.
  rewrite Hs in Ki, Kb.
  rewrite (bool_decide_eq_false_2 _ Hni) in Ki.
  rewrite (bool_decide_eq_false_2 _ Hnb) in Kb.
  rewrite Ki, Kb, Ei, Eb. split.
  - destruct (dict_or_empty exp !! "interpolation").
    + reflexivity.
    + vm_compute; reflexivity.
  - destruct (dict_or_empty exp !! "bound").
    + reflexivity.
    + vm_compute; reflexivity.
Qed.

Lemma resize_layer_options_witness :
  let exp := Some ({[ "shoot" := VBool true; "downsample" := VSeq [2; 4]%Q;
                      "bound" := VStr "dct2" ]} : gmap string value) in
  ∃ L, init 2 None None exp = inr L
  ∧ (resize_interpolation L
     = default (VNum 1) (dict_or_empty exp !! "interpolation")
     ∧ resize_bound L = default (VStr "dft") (dict_or_empty exp !! "bound")
     ∧ length (resize_factors L) = 2
     ∧ resize_factors L
       = map (fun f => 1 / f)%Q (VoxelMorph.downsample_vel (core L))
     ∧ Forall (fun f => ¬ (f == 0)%Q) (VoxelMorph.downsample_vel (core L))
     ∧ (velexp_shoot L = false →
        velexp_kwargs L !! "interpolation" = Some (resize_interpolation L)
        ∧ velexp_kwargs L !! "bound" = Some (resize_bound L))).
Proof.
  cbv zeta. eexists. split.
  - vm_compute. reflexivity.
  - apply (resize_layer_options 2 None None). vm_compute. reflexivity.
Defined.



(** X17.  A downsampling factor of zero makes the construction fail (line 150
    divides by it): no module is returned. *)
Theorem zero_downsample_fails dim unet pull exp q :
  dict_or_empty exp !! "downsample" = Some (VNum q) → (q == 0)%Q → 0 < dim →
  ∃ e, init dim unet pull exp = inl e.
Proof.
  intros Hd Hq Hdim.
  destruct (init dim unet pull exp) as [e|L] eqn:H; [by exists e|exfalso].
  destruct (init_inv _ _ _ _ _ H) as (ds & Hds & _ & Hr & _).
  rewrite lookup_delete, decide_False in Hds by done.
  rewrite exp_defaults_lookup, Hd in Hds.
  unfold vector_of in Hds. cbn [from_option default] in Hds.
  apply (inj Some) in Hds. subst ds.
  destruct dim as [|n]; [lia|].
  unfold make_vector in Hr. cbn [repeat reciprocals] in Hr.
  apply Qeq_bool_iff in Hq. by rewrite Hq in Hr.
Qed.

Lemma zero_downsample_fails_witness :
  ∃ e, init 3 None None (Some {[ "downsample" := VNum 0 ]}) = inl e.
Proof.
  apply (zero_downsample_fails 3 None None _ 0); [reflexivity|reflexivity|lia].
Defined.

End InitProperties.

(* ===================================================================== *)
(** * Shapes of the spline field and of the multiplicative field *)
(* ===================================================================== *)

Module SplineProperties.
Import Torch Greens.

Lemma node_count_spec (s : nat) (f : Q) :
  (0 < f)%Q →
  ∃ n, RandomFieldSpline.node_count s f = Ok n
       ∧ (inject_Z (Z.of_nat s) <= inject_Z (Z.of_nat n) * f)%Q
       ∧ (inject_Z (Z.of_nat n - 1) * f < inject_Z (Z.of_nat s))%Q.
Proof.
  intros Hf. unfold RandomFieldSpline.node_count.
  destruct (Qle_bool f 0) eqn:E.
  { apply Qle_bool_iff in E. exfalso. by apply (Qlt_not_le _ _ Hf). }
  set (x := (inject_Z (Z.of_nat s) / f)%Q).
  assert (Hx : (0 <= x)%Q).
  { unfold x. apply Qle_shift_div_l; [done|]. rewrite Qmult_0_l.
    change 0%Q with (inject_Z 0). rewrite <- Zle_Qle. lia. }
  assert (Hc : (0 <= Qceiling x)%Z).
  { rewrite Zle_Qle. eapply Qle_trans; [exact Hx|apply Qle_ceiling]. }
  assert (Hs : (x * f == inject_Z (Z.of_nat s))%Q).
  { unfold x. field. intros E0. rewrite E0 in Hf. by apply (Qlt_irrefl 0). }
  eexists. split; [reflexivity|]. rewrite Z2Nat.id by done. split.
  - rewrite <- Hs. apply Qmult_le_compat_r; [apply Qle_ceiling|by apply Qlt_le_weak].
  - rewrite <- Hs. apply Qmult_lt_compat_r; [done|apply Qceiling_lt].
Qed.

Lemma nodes_ok shape fwhm :
  length fwhm = length shape → Forall (fun f => 0 < f)%Q fwhm →
  ∃ ns, RandomFieldSpline.nodes shape fwhm = Ok ns ∧ length ns = length shape.
Proof.
  revert fwhm. induction shape as [|s shape IH]; intros [|f fwhm] Hlen Hpos;
    try done.
  - by exists [].
  - apply Forall_cons in Hpos as [Hf Hpos].
    destruct (node_count_spec s f Hf) as (n & Hn & _).
    destruct (IH fwhm ltac:(cbn in Hlen; lia) Hpos) as (ns & Hns & Hl).
    exists (n :: ns). cbn [RandomFieldSpline.nodes]. rewrite Hn, Hns.
    split; [done|]. cbn. by rewrite Hl.
Qed.

Lemma fits_per_channel b c l :
  fits ([b; c] ++ l) (c :: repeat 1 (length l)) = true.
Proof.
  cbn [app]. rewrite FieldProperties.fits_cons_left
    by (cbn; rewrite repeat_length; lia).
  rewrite FieldProperties.fits_cons_both by (by rewrite repeat_length).
  by rewrite FieldProperties.fits_ones, Nat.eqb_refl.
Qed.

(** With positive widths, [RandomFieldSpline.forward] returns an array of
    shape [(batch, channel, *shape)], whatever the number of nodes. *)
Lemma spline_forward_shape self batch o sh :
  from_option Some (RandomFieldSpline.shape self) (o_shape o) = Some sh →
  Forall (fun f => 0 < f)%Q (make_vector (RandomFieldSpline.fwhm self) (length sh)) →
  RandomFieldSpline.forward self batch o
  = Ok ([batch; default (RandomFieldSpline.channel self) (o_channel o)] ++ sh).
Proof.
  intros Hsh Hpos. unfold RandomFieldSpline.forward. rewrite Hsh.
  destruct (nodes_ok sh _ (length_make_vector _ _) Hpos) as (ns & -> & Hl).
  cbn [bind]. rewrite !length_make_vector. unfold inplace.
  set (c := default (RandomFieldSpline.channel self) (o_channel o)).
  replace (fits ([batch; c] ++ ns) (c :: repeat 1 (length sh))) with true
    by (rewrite <- Hl; symmetry; apply fits_per_channel).
  cbn [bind]. unfold RandomFieldSpline.resize_to.
  replace (take 2 ([batch; c] ++ ns)) with [batch; c] by done.
  by rewrite fits_per_channel.
Qed.

(** X18.  [RandomMultiplicativeField.forward(shape)] returns an array of exactly
    the shape it is asked for when that shape has at least a batch and a
    channel axis (and the widths are positive); with fewer axes it raises
    [IndexError]. *)
Theorem multiplicative_forward_shape self shape :
  Forall (fun f => 0 < f)%Q
    (make_vector (RandomFieldSpline.fwhm (RandomMultiplicativeField.field self))
                 (length shape - 2)) →
  RandomMultiplicativeField.forward self shape
  = if 2 <=? length shape then Ok shape
    else Raise (IndexError "list index out of range").
Proof.
  intros Hpos. unfold RandomMultiplicativeField.forward.
  destruct shape as [|b [|c sh]]; [done|done|].
  cbn [lookup list_lookup length Nat.leb].
  rewrite (spline_forward_shape _ b _ sh); [done|done|].
  replace (length (b :: c :: sh) - 2) with (length sh) in Hpos by (cbn; lia).
  exact Hpos.
Qed.

Lemma multiplicative_forward_shape_witness :
  let self := RandomMultiplicativeField.Instance
                (RandomFieldSpline.Instance None (Scalar 0) (Scalar 1) (Scalar 5) 1 3)
                false in
  RandomMultiplicativeField.forward self [4; 2; 32; 32; 16]
  = if 2 <=? length [4; 2; 32; 32; 16] then Ok [4; 2; 32; 32; 16]
    else Raise (IndexError "list index out of range").
Proof.
  cbn zeta. apply multiplicative_forward_shape. cbn. by repeat constructor.
Defined.

End SplineProperties.
